(** * A shallow embedding of [nn/layers.py]

    The module defines a small class hierarchy: [Function] (a differentiable
    function with a [cache] and a [grad] dictionary and the call protocol
    [__call__]), [Layer] (a [Function] that also owns [weight] and
    [weight_update]), and the two concrete units [Linear] and [Sigmoid].

    Arrays are two-dimensional with an explicit shape, the dictionaries are
    finite maps keyed by strings, and every method is a computation in a state
    monad over the object's attributes that can raise [KeyError] or
    [ValueError], as the Python code does.

    Sums are accumulated from the left, starting from zero; numpy leaves the
    order to its back end, which exact arithmetic cannot see. The loop of
    [_update_weights] visits the keys in the order of the finite map, which
    for ['W'] and ['b'] is the insertion order of the Python dictionary. *)

From stdpp Require Import gmap strings list fin_maps.
From Stdlib Require Import ZArith Reals Lra PrimFloat.

Set Default Proof Using "Type*".

(** ** Scalars

    The arithmetic [layers.py] itself needs from its element type, and the
    two extra operations the logistic function needs. Nothing is assumed about
    them unless a statement says so. *)

Class Scalar (T : Type) := {
  fzero : T;
  fone : T;
  fadd : T → T → T;
  fsub : T → T → T;
  fmul : T → T → T;
  fneg : T → T
}.

Class Exponential (T : Type) := {
  fdiv : T → T → T;
  fexp : T → T
}.

(** ** Exceptions and results *)

Inductive exn :=
| KeyError (k : string)
| ValueError.

Inductive result (A : Type) :=
| Ok (a : A)
| Raise (e : exn).
Arguments Ok {A} a.
Arguments Raise {A} e.

(** A method of an object with attributes [S]: it runs on the attributes,
    leaves them possibly changed, and returns or raises. The attributes at the
    point of a raise are kept, as they are in Python. *)
Definition M (S A : Type) : Type := S → S * result A.

Definition ret {S A} (a : A) : M S A := λ s, (s, Ok a).

Definition bind {S A B} (m : M S A) (k : A → M S B) : M S B :=
  λ s, match m s with
       | (s', Ok a) => k a s'
       | (s', Raise e) => (s', Raise e)
       end.

Definition lift {S A} (r : result A) : M S A := λ s, (s, r).
Definition modify {S} (f : S → S) : M S unit := λ s, (f s, Ok tt).

Declare Scope py_scope.
Delimit Scope py_scope with py.
Notation "'let!' x ':=' m 'in' k" := (bind m (λ x, k))
  (at level 10, x name, m at level 100, k at level 200,
   format "'[v' 'let!'  x  ':='  m  'in' '/' k ']'") : py_scope.
Notation "m ';;;' k" := (bind m (λ _, k))
  (at level 100, k at level 200, right associativity,
   format "'[v' m ';;;' '/' k ']'") : py_scope.
Open Scope py_scope.

(** [for x in l: body x] *)
Fixpoint for_each {S A} (l : list A) (body : A → M S unit) : M S unit :=
  match l with
  | [] => ret tt
  | x :: l' => body x;;; for_each l' body
  end.

(** ** Arrays *)

Section Arrays.
Context {T : Type} `{!Scalar T}.

(** A two-dimensional [numpy.ndarray]: its shape and its rows. *)
Record ndarray := NdArray {
  nrows : nat;
  ncols : nat;
  data : list (list T)
}.

Definition shape (a : ndarray) : nat * nat := (nrows a, ncols a).

(** [a[i, j]] *)
Definition get (a : ndarray) (i j : nat) : T :=
  default fzero (data a !! i ≫= λ row, row !! j).

(** The array of shape [(r, c)] whose entry [(i, j)] is [f i j]. *)
Definition tabulate (r c : nat) (f : nat → nat → T) : ndarray :=
  NdArray r c ((λ i, f i <$> seq 0 c) <$> seq 0 r).

(** The shape and the rows agree. *)
Definition well_shaped (a : ndarray) : Prop :=
  length (data a) = nrows a ∧ Forall (λ row, length row = ncols a) (data a).

(** [f 0 + f 1 + ... + f (n - 1)], accumulated from the left. *)
Definition fsum (n : nat) (f : nat → T) : T :=
  foldl (λ acc k, fadd acc (f k)) fzero (seq 0 n).

(** The matrix product, on operands whose inner dimensions agree. *)
Definition matmul (a b : ndarray) : ndarray :=
  tabulate (nrows a) (ncols b)
    (λ i j, fsum (ncols a) (λ k, fmul (get a i k) (get b k j))).

(** [np.dot(a, b)] and [a.dot(b)] on two-dimensional arrays. *)
Definition np_dot (a b : ndarray) : result ndarray :=
  if decide (ncols a = nrows b) then Ok (matmul a b) else Raise ValueError.

(** [a.T] *)
Definition transpose (a : ndarray) : ndarray :=
  tabulate (ncols a) (nrows a) (λ i j, get a j i).

(** [np.sum(a, axis=0, keepdims=True)] *)
Definition np_sum_axis0_keepdims (a : ndarray) : ndarray :=
  tabulate 1 (ncols a) (λ _ j, fsum (nrows a) (λ i, get a i j)).

(** [np.ones_like(a)] *)
Definition np_ones_like (a : ndarray) : ndarray :=
  tabulate (nrows a) (ncols a) (λ _ _, fone).

(** Broadcasting of one axis: the two lengths agree or one of them is 1. *)
Definition broadcast_dim (d1 d2 : nat) : option nat :=
  if decide (d1 = d2) then Some d1
  else if decide (d1 = 1) then Some d2
  else if decide (d2 = 1) then Some d1
  else None.

(** The index read on an axis of length [d] for the result index [i]. *)
Definition broadcast_index (d i : nat) : nat := if decide (d = 1) then 0 else i.

Definition get_broadcast (a : ndarray) (i j : nat) : T :=
  get a (broadcast_index (nrows a) i) (broadcast_index (ncols a) j).

(** An elementwise binary operator of numpy ([a + b], [a - b], [a * b]). *)
Definition broadcast2 (op : T → T → T) (a b : ndarray) : result ndarray :=
  match broadcast_dim (nrows a) (nrows b), broadcast_dim (ncols a) (ncols b) with
  | Some r, Some c =>
      Ok (tabulate r c (λ i j, op (get_broadcast a i j) (get_broadcast b i j)))
  | _, _ => Raise ValueError
  end.

Definition nd_add : ndarray → ndarray → result ndarray := broadcast2 fadd.
Definition nd_sub : ndarray → ndarray → result ndarray := broadcast2 fsub.
Definition nd_mul : ndarray → ndarray → result ndarray := broadcast2 fmul.

(** [x * a] for a Python float [x]. *)
Definition scalar_mul (x : T) (a : ndarray) : ndarray :=
  tabulate (nrows a) (ncols a) (λ i j, fmul x (get a i j)).

(** A function of one number applied to every entry. *)
Definition nd_map (f : T → T) (a : ndarray) : ndarray :=
  tabulate (nrows a) (ncols a) (λ i j, f (get a i j)).

(** [d[k]] on a dictionary. *)
Definition getitem (d : gmap string ndarray) (k : string) : result ndarray :=
  match d !! k with
  | Some v => Ok v
  | None => Raise (KeyError k)
  end.

End Arrays.

Arguments ndarray T : clear implicits.

(** ** The attributes of the objects *)

Section Objects.
Context {T : Type} `{!Scalar T}.

(** [Function.__init__]: [self.cache] and [self.grad]. *)
Record Function_state := FunctionState {
  cache : gmap string (ndarray T);
  grad : gmap string (ndarray T)
}.

(** [Layer.__init__]: the attributes of [Function] together with
    [self.weight] and [self.weight_update]. *)
Record Layer_state := LayerState {
  base : Function_state;
  weight : gmap string (ndarray T);
  weight_update : gmap string (ndarray T)
}.

Definition Function_init : Function_state :=
  {| cache := ∅; grad := ∅ |}.

Definition Layer_init : Layer_state :=
  {| base := Function_init; weight := ∅; weight_update := ∅ |}.

Definition set_cache (f : gmap string (ndarray T) → gmap string (ndarray T))
    (s : Function_state) : Function_state :=
  {| cache := f (cache s); grad := grad s |}.

Definition set_grad (g : gmap string (ndarray T)) (s : Function_state) : Function_state :=
  {| cache := cache s; grad := g |}.

Definition set_base (f : Function_state → Function_state) (s : Layer_state) : Layer_state :=
  {| base := f (base s); weight := weight s; weight_update := weight_update s |}.

Definition set_weight (f : gmap string (ndarray T) → gmap string (ndarray T))
    (s : Layer_state) : Layer_state :=
  {| base := base s; weight := f (weight s); weight_update := weight_update s |}.

Definition set_weight_update (u : gmap string (ndarray T)) (s : Layer_state) : Layer_state :=
  {| base := base s; weight := weight s; weight_update := u |}.

(** [self.d[k]] for a dictionary attribute [d]. *)
Definition getattr_item {S} (d : S → gmap string (ndarray T)) (k : string)
    : M S (ndarray T) :=
  λ s, (s, getitem (d s) k).

(** The interface of [Function]: the methods a subclass overrides, and the
    attribute [grad] that [__call__] assigns. *)
Class Function (S : Type) := {
  self_grad : S → gmap string (ndarray T);
  assign_grad : gmap string (ndarray T) → S → S;
  forward : ndarray T → M S (ndarray T);
  backward : ndarray T → M S (ndarray T);
  local_grad : ndarray T → M S (gmap string (ndarray T))
}.

(** [Function.__call__] *)
Definition call {S} `{!Function S} (X : ndarray T) : M S (ndarray T) :=
  let! output := forward X in
  let! g := local_grad X in
  modify (assign_grad g);;;
  ret output.

(** [Layer._update_weights]: the body of the loop, for one key. *)
Definition update_weight (lr : T) (weight_key : string) : M Layer_state unit :=
  let! w := getattr_item weight weight_key in
  let! g := getattr_item weight_update weight_key in
  let! w' := lift (nd_sub w (scalar_mul lr g)) in
  modify (set_weight <[weight_key := w']>).

(** [Layer._update_weights]. The keys are visited in the order in which the
    map enumerates them. *)
Definition _update_weights (lr : T) : M Layer_state unit :=
  λ s, for_each (map_to_list (weight s)).*1 (update_weight lr) s.

(** *** [Linear] *)

(** [Linear.__init__] and [Linear._init_weights]: [W0] and [b0] stand for
    the scaled random draws [scale * np.random.randn(in_dim, out_dim)] and
    [scale * np.random.randn(1, out_dim)]. *)
Definition Linear_init (W0 b0 : ndarray T) : Layer_state :=
  set_weight <["b" := b0]> (set_weight <["W" := W0]> Layer_init).

Definition Linear_forward (X : ndarray T) : M Layer_state (ndarray T) :=
  let! W := getattr_item weight "W" in
  let! XW := lift (np_dot X W) in
  let! b := getattr_item weight "b" in
  let! output := lift (nd_add XW b) in
  modify (set_base (set_cache <["X" := X]>));;;
  modify (set_base (set_cache <["output" := output]>));;;
  ret output.

Definition Linear_backward (dY : ndarray T) : M Layer_state (ndarray T) :=
  let! gX := getattr_item (grad ∘ base) "X" in
  let! dX := lift (np_dot dY (transpose gX)) in
  let! X := getattr_item (cache ∘ base) "X" in
  let! gW := getattr_item (grad ∘ base) "W" in
  let! dW := lift (np_dot (transpose gW) dY) in
  let db := np_sum_axis0_keepdims dY in
  modify (set_weight_update (<["b" := db]> (<["W" := dW]> ∅)));;;
  ret dX.

Definition Linear_local_grad (X : ndarray T) : M Layer_state (gmap string (ndarray T)) :=
  let! gradX_local := getattr_item weight "W" in
  let gradW_local := X in
  let! b := getattr_item weight "b" in
  let gradb_local := np_ones_like b in
  ret (<["b" := gradb_local]> (<["W" := gradW_local]> (<["X" := gradX_local]> ∅))).

#[export] Instance Linear : Function Layer_state := {|
  self_grad := grad ∘ base;
  assign_grad := λ g, set_base (set_grad g);
  forward := Linear_forward;
  backward := Linear_backward;
  local_grad := Linear_local_grad
|}.

End Objects.

Arguments Function_state T : clear implicits.
Arguments Layer_state T : clear implicits.
Arguments Function T S : clear implicits.

(** *** [Sigmoid] *)

(** The two functions imported from [nn/functional.py], which is not among the
    sources: what each does to one entry of its argument. *)
Class Functional (T : Type) := {
  logistic : T → T;
  logistic_prime : T → T
}.

Section Sigmoid.
Context {T : Type} `{!Scalar T, !Functional T}.

(** Modelled from the spec: [sigmoid] of [nn/functional.py] is missing; the
    spec has it apply the logistic function to every entry. *)
Definition sigmoid (X : ndarray T) : ndarray T := nd_map logistic X.

(** Modelled from the spec: [sigmoid_prime] of [nn/functional.py] is
    missing; the spec has it apply the derivative of the logistic function
    to every entry. *)
Definition sigmoid_prime (X : ndarray T) : ndarray T := nd_map logistic_prime X.

Definition Sigmoid_forward (X : ndarray T) : M (Function_state T) (ndarray T) :=
  ret (sigmoid X).

Definition Sigmoid_backward (dY : ndarray T) : M (Function_state T) (ndarray T) :=
  let! gX := getattr_item grad "X" in
  lift (nd_mul dY gX).

Definition Sigmoid_local_grad (X : ndarray T)
    : M (Function_state T) (gmap string (ndarray T)) :=
  ret (<["X" := sigmoid_prime X]> ∅).

#[export] Instance Sigmoid : Function T (Function_state T) := {|
  self_grad := grad;
  assign_grad := set_grad;
  forward := Sigmoid_forward;
  backward := Sigmoid_backward;
  local_grad := Sigmoid_local_grad
|}.

End Sigmoid.

Section Logistic.
Context {T : Type} `{!Scalar T, !Exponential T}.

(** Modelled from the spec: the entry-wise function of [sigmoid], which the
    spec gives as [σ(x) = 1 / (1 + e^(−x))]. *)
Definition spec_logistic (x : T) : T := fdiv fone (fadd fone (fexp (fneg x))).

(** Modelled from the spec: the entry-wise function of [sigmoid_prime],
    which the spec gives as [σ(x) · (1 − σ(x))]. *)
Definition spec_logistic_prime (x : T) : T :=
  fmul (spec_logistic x) (fsub fone (spec_logistic x)).

(** Modelled from the spec: the module [nn/functional.py] as the spec
    describes it. *)
#[export] Instance spec_functional : Functional T := {|
  logistic := spec_logistic;
  logistic_prime := spec_logistic_prime
|}.

End Logistic.


(** ** The quantities the statements are about *)

Section Quantities.
Context {T : Type} `{!Scalar T}.
Implicit Types (W b X : ndarray T).

(** The entry [(i, j)] of the affine map [X · W + b], with the single row of
    [b] used for every row of the batch. *)
Definition affine_entry X W b (i j : nat) : T :=
  fadd (fsum (ncols X) (λ k, fmul (get X i k) (get W k j))) (get b 0 j).

(** What [Linear.forward] returns on operands whose shapes fit. *)
Definition affine X W b : ndarray T :=
  tabulate (nrows X) (ncols W) (affine_entry X W b).

(** The entrywise product of two arrays of the same shape. *)
Definition hadamard (a b : ndarray T) : ndarray T :=
  tabulate (nrows a) (ncols a) (λ i j, fmul (get a i j) (get b i j)).

(** One step of gradient descent on a parameter [w] with gradient [g]:
    entry by entry, [w − lr × g]. *)
Definition descent (lr : T) (w g : ndarray T) : ndarray T :=
  tabulate (nrows w) (ncols w) (λ i j, fsub (get w i j) (fmul lr (get g i j))).

(** The attributes of a Linear unit with parameters [W] and [b] after the
    call protocol has returned [Y] for the input [X]. *)
Definition Linear_called (s : Layer_state T) X W b (Y : ndarray T) : Layer_state T :=
  {| base := {| cache := <["output" := Y]> (<["X" := X]> (cache (base s)));
                grad := {[ "X" := W; "W" := X; "b" := np_ones_like b ]} |};
     weight := weight s;
     weight_update := weight_update s |}.

(** What holds of a Linear unit built with [in_dim] and [out_dim] at any
    time: the parameters, the cached local gradients and the stored
    gradients have the shapes the construction gave the parameters. *)
Definition Linear_shapes (in_dim out_dim : nat) (s : Layer_state T) : Prop :=
  (∀ k w, weight s !! k = Some w →
     (k = "W" ∧ shape w = (in_dim, out_dim)) ∨ (k = "b" ∧ shape w = (1, out_dim)))
  ∧ (∀ g, grad (base s) !! "X" = Some g → shape g = (in_dim, out_dim))
  ∧ (∀ g, grad (base s) !! "W" = Some g → ncols g = in_dim)
  ∧ (∀ k g, weight_update s !! k = Some g →
       (k = "W" ∧ shape g = (in_dim, out_dim)) ∨ (k = "b" ∧ shape g = (1, out_dim))).


End Quantities.

(** ** Histories of a unit *)

Section Histories.
Context {T : Type} `{!Scalar T}.

(** What a driver can do to a unit. *)
Inductive op :=
| OpForward (X : ndarray T)
| OpCall (X : ndarray T)
| OpBackward (dY : ndarray T)
| OpUpdate (lr : T).

Definition is_call (o : op) : bool :=
  match o with OpCall _ => true | _ => false end.

Definition is_backward (o : op) : bool :=
  match o with OpBackward _ => true | _ => false end.

(** The attributes after one operation on a Linear unit, whether it returned
    or raised. *)
Definition Linear_exec (s : Layer_state T) (o : op) : Layer_state T :=
  match o with
  | OpForward X => (forward X s).1
  | OpCall X => (call X s).1
  | OpBackward dY => (backward dY s).1
  | OpUpdate lr => (_update_weights lr s).1
  end.

Definition Linear_run (s : Layer_state T) (ops : list op) : Layer_state T :=
  foldl Linear_exec s ops.

(** The states of a Linear unit built by [Linear(in_dim, out_dim)] and then
    driven in any way. [1 / sqrt(in_dim)] needs [in_dim] positive. *)
Definition Linear_reachable (in_dim out_dim : nat) (s : Layer_state T) : Prop :=
  ∃ W0 b0 ops,
    0 < in_dim ∧ shape W0 = (in_dim, out_dim) ∧ shape b0 = (1, out_dim) ∧
    s = Linear_run (Linear_init W0 b0) ops.

Context `{!Functional T}.

(** The same for a Sigmoid unit, which has no update. *)
Definition Sigmoid_exec (s : Function_state T) (o : op) : Function_state T :=
  match o with
  | OpForward X => (forward X s).1
  | OpCall X => (call X s).1
  | OpBackward dY => (backward dY s).1
  | OpUpdate _ => s
  end.

Definition Sigmoid_run (s : Function_state T) (ops : list op) : Function_state T :=
  foldl Sigmoid_exec s ops.

End Histories.

Arguments op T : clear implicits.

(** ** What the protocol keeps *)

Section Protocol.
Context {T : Type} `{!Scalar T}.

(** What holds of the dictionaries of a Linear unit at any time:
    [weight_update] is empty or has both keys, and once [grad] has the key
    ['W'] it has the key ['X'] too and [cache] has the key ['X']. *)
Definition Linear_caches (s : Layer_state T) : Prop :=
  (weight_update s = ∅
   ∨ (is_Some (weight_update s !! "W") ∧ is_Some (weight_update s !! "b")))
  ∧ (is_Some (grad (base s) !! "W") →
     is_Some (grad (base s) !! "X") ∧ is_Some (cache (base s) !! "X")).

(** The argument of the last run of the call protocol in a history. *)
Fixpoint last_call (ops : list (op T)) : option (ndarray T) :=
  match ops with
  | [] => None
  | o :: ops' =>
      match last_call ops' with
      | Some X => Some X
      | None => match o with OpCall X => Some X | _ => None end
      end
  end.

End Protocol.

(** ** Two element types *)

(** The integers, on which every definition above computes. *)
#[export] Instance Z_scalar : Scalar Z := {|
  fzero := 0%Z; fone := 1%Z;
  fadd := Z.add; fsub := Z.sub; fmul := Z.mul; fneg := Z.opp
|}.

(** The binary64 numbers of numpy's [float64], with the rounded operations of
    the machine: products can overflow to [infinity], and [0 * infinity] is
    [nan]. *)
#[export] Instance float_scalar : Scalar float := {|
  fzero := 0%float; fone := 1%float;
  fadd := PrimFloat.add; fsub := PrimFloat.sub; fmul := PrimFloat.mul;
  fneg := PrimFloat.opp
|}.

(** The real numbers, with the exponential function. *)
#[export] Instance R_scalar : Scalar R := {|
  fzero := 0%R; fone := 1%R;
  fadd := Rplus; fsub := Rminus; fmul := Rmult; fneg := Ropp
|}.

#[export] Instance R_exponential : Exponential R := {|
  fdiv := Rdiv; fexp := exp
|}.

(** A Linear unit with in-dim 3 and out-dim 2, a batch of 4 inputs and an
    output gradient for it. *)
Module Sample.
Definition W0 : ndarray Z := NdArray 3 2 [[1; 2]; [3; 4]; [5; 6]]%Z.
Definition b0 : ndarray Z := NdArray 1 2 [[10; 20]]%Z.
Definition X : ndarray Z := NdArray 4 3 [[1; 0; 0]; [0; 1; 0]; [1; 1; 1]; [2; 0; 1]]%Z.
Definition dY : ndarray Z := NdArray 4 2 [[1; 1]; [1; 1]; [1; 1]; [1; 2]]%Z.
Definition s0 : Layer_state Z := Linear_init W0 b0.
Definition s1 : Layer_state Z := (call X s0).1.
Definition s2 : Layer_state Z := (backward dY s1).1.

Definition RW0 : ndarray R := NdArray 2 1 [[1]; [2]]%R.
Definition Rb0 : ndarray R := NdArray 1 1 [[0]]%R.
Definition RX : ndarray R := NdArray 1 2 [[0; 0]]%R.
Definition RX' : ndarray R := NdArray 1 2 [[1; 1]]%R.
Definition RdY : ndarray R := NdArray 1 1 [[1]]%R.
Definition Rs0 : Layer_state R := Linear_init RW0 Rb0.

Definition dY' : ndarray Z := NdArray 4 2 [[0; 1]; [2; 0]; [1; 1]; [0; 3]]%Z.
Definition X2 : ndarray Z := NdArray 1 3 [[1; 1; 1]]%Z.
Definition X0 : ndarray Z := NdArray 0 3 [].
Definition dY0 : ndarray Z := NdArray 0 2 [].
Definition RX2 : ndarray R := NdArray 2 2 [[0; 1]; [2; 3]]%R.
Definition RdY3 : ndarray R := NdArray 2 3 [[1; 1; 1]; [1; 1; 1]]%R.

(** A Linear unit over [float64] with in-dim 1 and out-dim 1, and a finite
    input and a finite output gradient, both [2^600]. *)
Definition FW0 : ndarray float := NdArray 1 1 [[1%float]].
Definition Fb0 : ndarray float := NdArray 1 1 [[0%float]].
Definition Fs0 : Layer_state float := Linear_init FW0 Fb0.
End Sample.

(** * Properties *)

(** ** Arrays *)

Section ArrayFacts.
Context {T : Type} `{!Scalar T}.
Implicit Types (a b : ndarray T) (f : nat → nat → T).

Lemma shape_eq a r c : shape a = (r, c) ↔ nrows a = r ∧ ncols a = c.
Proof. unfold shape. split; [by intros [= -> ->] | by intros [-> ->]]. Qed.

Lemma get_tabulate r c f i j :
  i < r → j < c → get (tabulate r c f) i j = f i j.
Proof.
  intros Hi Hj. unfold get, tabulate. simpl.
  rewrite list_lookup_fmap, (lookup_seq_lt 0 r i Hi). simpl.
  by rewrite list_lookup_fmap, (lookup_seq_lt 0 c j Hj).
Qed.

Lemma tabulate_ext r c f g :
  (∀ i j, i < r → j < c → f i j = g i j) → tabulate r c f = tabulate r c g.
Proof.
  intros Hfg. unfold tabulate. f_equal.
  apply list_fmap_ext. intros n i [-> Hi]%lookup_seq.
  apply list_fmap_ext. intros m j [-> Hj]%lookup_seq. simpl. by apply Hfg.
Qed.

Lemma well_shaped_tabulate r c f : well_shaped (tabulate r c f).
Proof.
  split; simpl.
  - by rewrite length_fmap, length_seq.
  - apply Forall_fmap, Forall_forall. intros i _. simpl.
    by rewrite length_fmap, length_seq.
Qed.

(** Two well-shaped arrays with the same shape and the same entries are
    the same array. *)
Lemma well_shaped_ext a b :
  well_shaped a → well_shaped b → shape a = shape b →
  (∀ i j, i < nrows a → j < ncols a → get a i j = get b i j) →
  a = b.
Proof.
  destruct a as [ra ca da], b as [rb cb db].
  intros [Hla Hfa] [Hlb Hfb] [= <- <-] Hget. simpl in *. f_equal.
  apply list_eq_same_length with ra; [done | done |].
  intros i x y Hi Hx Hy.
  pose proof (proj1 (Forall_lookup _ _) Hfa i x Hx) as Hlx.
  pose proof (proj1 (Forall_lookup _ _) Hfb i y Hy) as Hly.
  simpl in *.
  apply list_eq_same_length with ca; [done | done |].
  intros j u v Hj Hu Hv.
  specialize (Hget i j Hi Hj). unfold get in Hget. simpl in Hget.
  rewrite Hx, Hy in Hget. simpl in Hget. rewrite Hu, Hv in Hget.
  by simpl in Hget.
Qed.

Lemma tabulate_get a : well_shaped a → tabulate (nrows a) (ncols a) (get a) = a.
Proof.
  intros Ha. apply well_shaped_ext; [apply well_shaped_tabulate | done | done |].
  intros i j Hi Hj. simpl in *. by apply get_tabulate.
Qed.

Lemma fsum_S n (f : nat → T) : fsum (S n) f = fadd (fsum n f) (f n).
Proof. unfold fsum. by rewrite seq_S, foldl_app. Qed.

Lemma fsum_ext n (f g : nat → T) :
  (∀ k, k < n → f k = g k) → fsum n f = fsum n g.
Proof.
  induction n as [|n IH]; intros Hfg; [done |].
  rewrite !fsum_S, IH, Hfg by (intros; auto with lia). done.
Qed.

Lemma get_transpose a i j :
  i < ncols a → j < nrows a → get (transpose a) i j = get a j i.
Proof. intros. unfold transpose. by rewrite get_tabulate. Qed.

Lemma get_matmul a b i j :
  i < nrows a → j < ncols b →
  get (matmul a b) i j = fsum (ncols a) (λ k, fmul (get a i k) (get b k j)).
Proof. intros. unfold matmul. by rewrite get_tabulate. Qed.

Lemma broadcast_dim_same d : broadcast_dim d d = Some d.
Proof. unfold broadcast_dim. by rewrite decide_True. Qed.

Lemma broadcast_dim_one_r d : broadcast_dim d 1 = Some d.
Proof. unfold broadcast_dim. repeat case_decide; by subst. Qed.

Lemma broadcast_index_lt d i : i < d → broadcast_index d i = i.
Proof. unfold broadcast_index. case_decide; lia. Qed.

Lemma broadcast_index_one i : broadcast_index 1 i = 0.
Proof. done. Qed.

(** On two arrays of the same shape, an elementwise operator does not
    raise, keeps the shape and combines the entries at the same place. *)
Lemma broadcast2_same_shape (op : T → T → T) a b :
  shape a = shape b →
  broadcast2 op a b =
    Ok (tabulate (nrows a) (ncols a) (λ i j, op (get_broadcast a i j) (get_broadcast b i j))).
Proof.
  intros [= Hr Hc]. unfold broadcast2.
  by rewrite <- Hr, <- Hc, !broadcast_dim_same.
Qed.

Lemma get_broadcast_lt a i j : i < nrows a → j < ncols a → get_broadcast a i j = get a i j.
Proof. intros. unfold get_broadcast. by rewrite !broadcast_index_lt. Qed.

End ArrayFacts.

(** ** The Linear unit *)

Section LinearFacts.
Context {T : Type} `{!Scalar T}.
Implicit Types (s : Layer_state T) (W b X dY : ndarray T).

(** Running a method: unfold the monad and the attribute accesses. *)
Ltac run :=
  unfold call, forward, backward, local_grad, Linear,
    Linear_forward, Linear_backward, Linear_local_grad,
    bind, ret, lift, modify, getattr_item, getitem; simpl.


Lemma np_dot_add_affine X W b batch in_dim out_dim :
  shape W = (in_dim, out_dim) → shape b = (1, out_dim) → shape X = (batch, in_dim) →
  np_dot X W = Ok (matmul X W) ∧ nd_add (matmul X W) b = Ok (affine X W b).
Proof.
  intros [HWr HWc]%shape_eq [Hbr Hbc]%shape_eq [HXr HXc]%shape_eq.
  split.
  - unfold np_dot. rewrite decide_True; [done | congruence].
  - unfold nd_add, broadcast2, matmul. simpl.
    rewrite Hbr, Hbc, HWc, broadcast_dim_one_r, broadcast_dim_same.
    f_equal. unfold affine. rewrite HXr, HWc.
    apply tabulate_ext. intros i j Hi Hj.
    unfold affine_entry, get_broadcast. simpl.
    rewrite Hbr, Hbc, !broadcast_index_lt, get_tabulate by lia.
    done.
Qed.

(** The state after [forward X] from a state whose weights fit [X]. *)
Lemma Linear_forward_run s W b X batch in_dim out_dim :
  weight s !! "W" = Some W → weight s !! "b" = Some b →
  shape W = (in_dim, out_dim) → shape b = (1, out_dim) → shape X = (batch, in_dim) →
  forward X s =
    (set_base (set_cache <["output" := affine X W b]>) (set_base (set_cache <["X" := X]>) s),
     Ok (affine X W b)).
Proof.
  intros HW Hb SW Sb SX.
  destruct (np_dot_add_affine X W b batch in_dim out_dim SW Sb SX) as [Hdot Hadd].
  run. rewrite HW, Hdot, Hb, Hadd. done.
Qed.

(** The state after the call protocol. *)
Lemma Linear_call_run s W b X batch in_dim out_dim :
  weight s !! "W" = Some W → weight s !! "b" = Some b →
  shape W = (in_dim, out_dim) → shape b = (1, out_dim) → shape X = (batch, in_dim) →
  call X s =
    ({| base := {| cache := <["output" := affine X W b]> (<["X" := X]> (cache (base s)));
                   grad := <["b" := np_ones_like b]> (<["W" := X]> (<["X" := W]> ∅)) |};
        weight := weight s;
        weight_update := weight_update s |},
     Ok (affine X W b)).
Proof.
  intros HW Hb SW Sb SX.
  pose proof (Linear_forward_run s W b X batch in_dim out_dim HW Hb SW Sb SX) as Hf.
  unfold call, bind. rewrite Hf. run. by rewrite HW, Hb.
Qed.

(** C3. On a Linear unit whose parameters are [W] of shape in-dim × out-dim
    and [b] of shape 1 × out-dim, [forward] on an input [X] of shape
    batch × in-dim returns an array of shape batch × out-dim whose entry
    [(i, j)] is the sum over [k] of [X[i,k] * W[k,j]], plus [b[0,j]]: the
    product [X · W] with the row [b] added to every row of the batch. *)
Theorem Linear_forward_affine s W b X batch in_dim out_dim :
  weight s !! "W" = Some W → weight s !! "b" = Some b →
  shape W = (in_dim, out_dim) → shape b = (1, out_dim) → shape X = (batch, in_dim) →
  ∃ Y, (forward X s).2 = Ok Y
       ∧ shape Y = (batch, out_dim)
       ∧ well_shaped Y
       ∧ ∀ i j, i < batch → j < out_dim →
           get Y i j = fadd (fsum in_dim (λ k, fmul (get X i k) (get W k j))) (get b 0 j).
Proof.
  intros HW Hb SW Sb SX. exists (affine X W b).
  rewrite (Linear_forward_run s W b X batch in_dim out_dim) by done.
  apply shape_eq in SW as [HWr HWc]. apply shape_eq in SX as [HXr HXc].
  split_and!.
  - done.
  - unfold affine, shape. simpl. by rewrite HXr, HWc.
  - apply well_shaped_tabulate.
  - intros i j Hi Hj. unfold affine.
    rewrite get_tabulate by lia. unfold affine_entry. by rewrite HXc.
Qed.

(** [forward] returns exactly when its product and its sum are defined, and
    then has assigned the two cache entries. *)
Lemma Linear_forward_ok s X W b XW Y :
  weight s !! "W" = Some W → weight s !! "b" = Some b →
  np_dot X W = Ok XW → nd_add XW b = Ok Y →
  forward X s =
    (set_base (set_cache (λ c, <["output" := Y]> (<["X" := X]> c))) s, Ok Y).
Proof. intros HW Hb Hd Ha. run. by rewrite HW, Hd, Hb, Ha. Qed.

(** The call protocol returns in the same cases, and then leaves the state
    [Linear_called]. *)
Lemma Linear_call_ok s X W b XW Y :
  weight s !! "W" = Some W → weight s !! "b" = Some b →
  np_dot X W = Ok XW → nd_add XW b = Ok Y →
  call X s = (Linear_called s X W b Y, Ok Y).
Proof. intros HW Hb Hd Ha. run. rewrite HW, Hd, Hb, Ha. simpl. by rewrite HW, Hb. Qed.

(** Otherwise it raises and leaves the state as it was. *)
Lemma Linear_call_cases s X :
  (∃ e, call X s = (s, Raise e))
  ∨ (∃ W b XW Y,
        weight s !! "W" = Some W ∧ weight s !! "b" = Some b
        ∧ np_dot X W = Ok XW ∧ nd_add XW b = Ok Y
        ∧ call X s = (Linear_called s X W b Y, Ok Y)).
Proof.
  destruct (weight s !! "W") as [W|] eqn:HW; [| left; run; rewrite HW; eauto].
  destruct (np_dot X W) as [XW|] eqn:Hd; [| left; run; rewrite HW, Hd; eauto].
  destruct (weight s !! "b") as [b|] eqn:Hb; [| left; run; rewrite HW, Hd, Hb; eauto].
  destruct (nd_add XW b) as [Y|] eqn:Ha; [| left; run; rewrite HW, Hd, Hb, Ha; eauto].
  right. exists W, b, XW, Y. split_and!; try done. by apply (Linear_call_ok s X W b XW Y).
Qed.


(** [backward] assigns [weight_update] and nothing else, if it gets that
    far. *)
Lemma Linear_backward_state s dY :
  weight (backward dY s).1 = weight s ∧ base (backward dY s).1 = base s.
Proof. run. by repeat case_match. Qed.

(** [forward] writes to the cache only, [local_grad] to nothing, and the
    call protocol to the cache and the local gradients. *)
Lemma Linear_forward_state s X :
  weight (forward X s).1 = weight s
  ∧ weight_update (forward X s).1 = weight_update s
  ∧ grad (base (forward X s).1) = grad (base s).
Proof. run. by repeat case_match. Qed.

Lemma Linear_local_grad_state s X : (local_grad X s).1 = s.
Proof. run. by repeat case_match. Qed.

Lemma Linear_call_state s X :
  weight (call X s).1 = weight s ∧ weight_update (call X s).1 = weight_update s.
Proof. run. repeat case_match; by simplify_eq/=. Qed.

(** C10. On any state and any argument, whether it returns or raises,
    [Linear.backward] leaves the parameters, the forward cache and the
    local-gradient cache as they were; [forward], [local_grad] and the call
    protocol leave the parameters as they were as well, so that only
    [_update_weights] changes them. *)
Theorem Linear_backward_frame s dY X :
  (weight (backward dY s).1 = weight s
   ∧ cache (base (backward dY s).1) = cache (base s)
   ∧ grad (base (backward dY s).1) = grad (base s))
  ∧ weight (forward X s).1 = weight s
  ∧ weight (local_grad X s).1 = weight s
  ∧ weight (call X s).1 = weight s.
Proof.
  destruct (Linear_backward_state s dY) as [Hw Hb].
  split_and!.
  - done.
  - by rewrite Hb.
  - by rewrite Hb.
  - apply Linear_forward_state.
  - by rewrite Linear_local_grad_state.
  - apply Linear_call_state.
Qed.

End LinearFacts.

(** ** The update of a Layer *)

Section UpdateFacts.
Context {T : Type} `{!Scalar T}.
Implicit Types (s : Layer_state T) (w g : ndarray T) (lr : T).

Ltac run :=
  unfold update_weight, bind, ret, lift, modify, getattr_item, getitem; simpl.

Lemma nd_sub_scalar_mul lr w g :
  shape g = shape w → nd_sub w (scalar_mul lr g) = Ok (descent lr w g).
Proof.
  intros [= Hr Hc]. unfold nd_sub.
  rewrite broadcast2_same_shape by (unfold shape; simpl; congruence).
  f_equal. apply tabulate_ext. intros i j Hi Hj.
  rewrite !get_broadcast_lt by (simpl; lia).
  unfold scalar_mul. by rewrite get_tabulate by lia.
Qed.

(** One turn of the loop on a key that has a gradient of the right shape. *)
Lemma update_weight_ok lr k s w g :
  weight s !! k = Some w → weight_update s !! k = Some g → shape g = shape w →
  update_weight lr k s = (set_weight <[k := descent lr w g]> s, Ok tt).
Proof.
  intros Hw Hg Hs. run. by rewrite Hw, Hg, nd_sub_scalar_mul.
Qed.

(** One turn of the loop on a key that has no gradient. *)
Lemma update_weight_missing lr k s w :
  weight s !! k = Some w → weight_update s !! k = None →
  update_weight lr k s = (s, Raise (KeyError k)).
Proof. intros Hw Hg. run. by rewrite Hw, Hg. Qed.

(** Whatever happens in a turn of the loop, it touches nothing but the
    value of a parameter that is already there. *)
Lemma update_weight_frame lr k s :
  let s' := (update_weight lr k s).1 in
  base s' = base s ∧ weight_update s' = weight_update s ∧ dom (weight s') = dom (weight s).
Proof.
  run. destruct (weight s !! k) as [w|] eqn:Hw; [| done].
  destruct (weight_update s !! k) as [g|]; [| done].
  destruct (nd_sub w (scalar_mul lr g)) as [w'|]; [| done].
  simpl. split_and!; [done | done |].
  rewrite dom_insert_L.
  apply subseteq_union_1_L, singleton_subseteq_l, elem_of_dom. eauto.
Qed.

Lemma for_each_update_frame lr (l : list string) s :
  let s' := (for_each l (update_weight lr) s).1 in
  base s' = base s ∧ weight_update s' = weight_update s ∧ dom (weight s') = dom (weight s).
Proof.
  revert s. induction l as [|k l IH]; intros s; [done |].
  simpl. unfold bind.
  pose proof (update_weight_frame lr k s) as Hk. simpl in Hk.
  destruct (update_weight lr k s) as [s1 [[]|e]]; simpl in Hk; [| done].
  destruct (IH s1) as (Hb & Hu & Hd). destruct Hk as (Hb1 & Hu1 & Hd1).
  split_and!; congruence.
Qed.

(** The loop over keys that all have a gradient of the right shape. *)
Lemma for_each_update_ok lr (l : list string) s :
  NoDup l →
  (∀ k, k ∈ l → ∃ w g,
      weight s !! k = Some w ∧ weight_update s !! k = Some g ∧ shape g = shape w) →
  ∃ s', for_each l (update_weight lr) s = (s', Ok tt)
        ∧ (∀ k, k ∉ l → weight s' !! k = weight s !! k)
        ∧ (∀ k w g, k ∈ l → weight s !! k = Some w → weight_update s !! k = Some g →
             weight s' !! k = Some (descent lr w g)).
Proof.
  revert s. induction l as [|k l IH]; intros s Hnd Hall.
  - exists s. split_and!; [done | done |]. intros k w g Hk. by apply elem_of_nil in Hk.
  - apply NoDup_cons in Hnd as [Hk Hnd].
    destruct (Hall k) as (w & g & Hw & Hg & Hs); [left |].
    destruct (IH (set_weight <[k := descent lr w g]> s) Hnd) as (s' & Hrun & Hout & Hin).
    { intros k' Hk'. destruct (Hall k') as (w' & g' & Hw' & Hg' & Hs'); [by right |].
      exists w', g'. simpl. rewrite lookup_insert_ne by (intros ->; done). done. }
    exists s'. split_and!.
    + simpl. unfold bind. by rewrite (update_weight_ok lr k s w g).
    + intros k' Hk'. apply not_elem_of_cons in Hk' as [Hne Hk'].
      rewrite Hout by done. simpl. by rewrite lookup_insert_ne.
    + intros k' w' g' [-> | Hk']%elem_of_cons Hw' Hg'.
      * rewrite Hout by done. simpl. rewrite lookup_insert_eq. congruence.
      * apply Hin; [done | | done]. simpl.
        rewrite lookup_insert_ne by (intros ->; done). done.
Qed.

Lemma elem_of_weight_keys s k :
  k ∈ (map_to_list (weight s)).*1 ↔ is_Some (weight s !! k).
Proof.
  rewrite list_elem_of_fmap. split.
  - intros ([k' w] & -> & Hin). apply elem_of_map_to_list in Hin. eauto.
  - intros [w Hw]. exists (k, w). split; [done |]. by apply elem_of_map_to_list.
Qed.


(** On a Layer that owns a parameter and has an empty [weight_update],
    [_update_weights] raises at the first key and changes nothing. *)
Lemma update_weights_unpopulated s lr :
  weight s ≠ ∅ → weight_update s = ∅ →
  ∃ k, k ∈ dom (weight s) ∧ _update_weights lr s = (s, Raise (KeyError k)).
Proof.
  intros Hne Hemp. unfold _update_weights.
  destruct (map_to_list (weight s)) as [|[k w] l] eqn:Hl.
  { by apply map_to_list_empty_iff in Hl. }
  assert (Hw : weight s !! k = Some w).
  { apply elem_of_map_to_list. rewrite Hl. left. }
  exists k. split; [apply elem_of_dom; eauto |].
  simpl. unfold bind. rewrite (update_weight_missing lr k s w); [done | done |].
  by rewrite Hemp.
Qed.

End UpdateFacts.

(** ** Histories of a Linear unit *)

Section LinearHistory.
Context {T : Type} `{!Scalar T}.
Implicit Types (s : Layer_state T) (W b X dY : ndarray T) (o : op T).

Ltac run :=
  unfold call, forward, backward, local_grad, Linear,
    Linear_forward, Linear_backward, Linear_local_grad,
    bind, ret, lift, modify, getattr_item, getitem; simpl.

(** A [backward] that returns has assigned a dictionary with the keys
    ['W'] and ['b']. *)
Lemma Linear_backward_returns s dY s' dX :
  backward dY s = (s', Ok dX) →
  ∃ dW db, s' = set_weight_update (<["b" := db]> (<["W" := dW]> ∅)) s.
Proof.
  run. repeat case_match; intros; simplify_eq/=. eauto.
Qed.

Lemma Linear_exec_weight_dom s o : dom (weight (Linear_exec s o)) = dom (weight s).
Proof.
  destruct o as [X | X | dY | lr]; unfold Linear_exec.
  - by rewrite (proj1 (Linear_forward_state s X)).
  - by rewrite (proj1 (Linear_call_state s X)).
  - by rewrite (proj1 (Linear_backward_state s dY)).
  - apply for_each_update_frame.
Qed.

Lemma Linear_run_weight_dom s ops :
  dom (weight (Linear_run s ops)) = dom (weight s).
Proof.
  revert s. induction ops as [|o ops IH]; intros s; [done |].
  simpl. by rewrite IH, Linear_exec_weight_dom.
Qed.

Lemma Linear_init_weight_dom W0 b0 :
  dom (weight (Linear_init W0 b0)) = ({[ "W"; "b" ]} : gset string).
Proof. simpl. rewrite !dom_insert_L, dom_empty_L. set_solver. Qed.

(** The parameters of a Linear unit are ['W'] and ['b'], always. *)
Lemma Linear_reachable_weight_dom in_dim out_dim s :
  Linear_reachable in_dim out_dim s → dom (weight s) = ({[ "W"; "b" ]} : gset string).
Proof.
  intros (W0 & b0 & ops & _ & _ & _ & ->).
  by rewrite Linear_run_weight_dom, Linear_init_weight_dom.
Qed.

(** C9. On a Linear unit, in whatever way it was driven before, a [backward]
    call that returns leaves a parameter-update set whose keys are the keys
    of the parameter set, which are ['W'] and ['b']. *)
Theorem Linear_backward_keys in_dim out_dim s dY s' dX :
  Linear_reachable in_dim out_dim s →
  backward dY s = (s', Ok dX) →
  dom (weight_update s') = dom (weight s')
  ∧ dom (weight s') = ({[ "W"; "b" ]} : gset string).
Proof.
  intros Hreach Hback.
  destruct (Linear_backward_returns s dY s' dX Hback) as (dW & db & ->).
  simpl. rewrite (Linear_reachable_weight_dom in_dim out_dim s Hreach).
  split; [| done].
  rewrite !dom_insert_L, dom_empty_L. set_solver.
Qed.

Lemma Linear_called_grad s X W b (Y : ndarray T) :
  grad (base (Linear_called s X W b Y)) !! "X" = Some W
  ∧ grad (base (Linear_called s X W b Y)) !! "W" = Some X.
Proof. done. Qed.

(** [backward] returns exactly when its two products are defined. *)
Lemma Linear_backward_cases s dY :
  (∃ e, backward dY s = (s, Raise e))
  ∨ (∃ gX gW,
        grad (base s) !! "X" = Some gX ∧ grad (base s) !! "W" = Some gW
        ∧ ncols dY = ncols gX ∧ nrows gW = nrows dY
        ∧ backward dY s =
            (set_weight_update
               {[ "W" := matmul (transpose gW) dY; "b" := np_sum_axis0_keepdims dY ]} s,
             Ok (matmul dY (transpose gX)))).
Proof.
  run. unfold np_dot. simpl.
  destruct (grad (base s) !! "X") as [gX|]; [| eauto].
  case_decide; [| eauto]. simpl.
  destruct (cache (base s) !! "X"); [| eauto].
  destruct (grad (base s) !! "W") as [gW|]; [| eauto].
  case_decide; [| eauto]. simpl.
  right. exists gX, gW. done.
Qed.

Lemma Linear_init_shapes in_dim out_dim W0 b0 :
  shape W0 = (in_dim, out_dim) → shape b0 = (1, out_dim) →
  Linear_shapes in_dim out_dim (Linear_init W0 b0).
Proof.
  intros SW Sb. split_and!; simpl; try done.
  intros k w. rewrite lookup_insert. case_decide; [naive_solver |].
  rewrite lookup_insert. case_decide; [naive_solver | done].
Qed.

Lemma update_weight_shapes in_dim out_dim lr k s :
  Linear_shapes in_dim out_dim s →
  Linear_shapes in_dim out_dim (update_weight lr k s).1.
Proof.
  intros (Hw & HgX & HgW & Hu).
  destruct (weight s !! k) as [w|] eqn:Ek;
    [| unfold update_weight, bind, getattr_item, getitem; by rewrite Ek].
  destruct (weight_update s !! k) as [g|] eqn:Eg;
    [| by rewrite (update_weight_missing lr k s w)].
  assert (Hs : shape g = shape w).
  { destruct (Hw k w Ek) as [[-> ->] | [-> ->]], (Hu _ g Eg) as [[? ->] | [? ->]];
      done. }
  rewrite (update_weight_ok lr k s w g) by done.
  split_and!; simpl; try done.
  intros k' w'. rewrite lookup_insert. case_decide; [| apply Hw].
  intros [= <-]. subst k'. destruct (Hw k w Ek) as [[-> Hsw] | [-> Hsw]];
    [left | right]; (split; [done |]); by rewrite <- Hsw.
Qed.

Lemma for_each_update_shapes in_dim out_dim lr (l : list string) s :
  Linear_shapes in_dim out_dim s →
  Linear_shapes in_dim out_dim (for_each l (update_weight lr) s).1.
Proof.
  revert s. induction l as [|k l IH]; intros s Hs; [done |].
  simpl. unfold bind.
  pose proof (update_weight_shapes in_dim out_dim lr k s Hs) as Hk.
  destruct (update_weight lr k s) as [s1 [[]|e]]; simpl in Hk; [| done].
  by apply IH.
Qed.

Lemma Linear_exec_shapes in_dim out_dim s o :
  Linear_shapes in_dim out_dim s → Linear_shapes in_dim out_dim (Linear_exec s o).
Proof.
  intros Hs. pose proof Hs as (Hw & HgX & HgW & Hu).
  destruct o as [X | X | dY | lr]; unfold Linear_exec.
  - destruct (Linear_forward_state s X) as (Ew & Eu & Eg).
    unfold Linear_shapes. by rewrite Ew, Eu, Eg.
  - destruct (Linear_call_cases s X) as [[e ->] | (W & b & XW & Y & HW & Hb & Hd & _ & ->)];
      [done |].
    unfold np_dot in Hd. case_decide as Hin; [| done].
    destruct (Hw "W" W HW) as [[_ [HWr HWc]%shape_eq] | [? _]]; [| done].
    destruct (Linear_called_grad s X W b Y) as [EX EW].
    cbn [fst]. split_and!; try done.
    + intros g. rewrite EX. intros [= <-]. by apply shape_eq.
    + intros g. rewrite EW. intros [= <-]. congruence.
  - destruct (Linear_backward_cases s dY) as [[e ->] | (gX & gW & EX & EW & Hc & Hr & ->)];
      [done |].
    apply HgX in EX as [HXr HXc]%shape_eq. apply HgW in EW.
    split_and!; try done.
    intros k g. cbn [fst set_weight_update weight_update].
    intros [[<- <-] | [_ [<- <-]%lookup_singleton_Some]]%lookup_insert_Some.
    + left. split; [done |]. unfold shape. simpl. congruence.
    + right. split; [done |]. unfold shape. simpl. congruence.
  - by apply for_each_update_shapes.
Qed.

Lemma Linear_reachable_shapes in_dim out_dim s :
  Linear_reachable in_dim out_dim s → Linear_shapes in_dim out_dim s.
Proof.
  intros (W0 & b0 & ops & _ & SW & Sb & ->).
  pose proof (Linear_init_shapes in_dim out_dim W0 b0 SW Sb) as Hs.
  revert Hs. generalize (Linear_init W0 b0).
  induction ops as [|o ops IH]; intros s Hs; [done |].
  simpl. by apply IH, Linear_exec_shapes.
Qed.

(** On a Linear unit, a [backward] call that returns leaves every parameter
    with a stored gradient of its own shape. *)
Lemma Linear_backward_populates in_dim out_dim s dY s' dX :
  Linear_reachable in_dim out_dim s →
  backward dY s = (s', Ok dX) →
  ∀ k w, weight s' !! k = Some w →
    ∃ g, weight_update s' !! k = Some g ∧ shape g = shape w.
Proof.
  intros Hreach Hback k w Hk.
  assert (Hs' : Linear_shapes in_dim out_dim s').
  { change s' with (s', Ok dX).1. rewrite <- Hback.
    apply (Linear_exec_shapes in_dim out_dim s (OpBackward dY)).
    by apply Linear_reachable_shapes. }
  destruct Hs' as (Hw & _ & _ & Hu).
  destruct (Linear_backward_returns s dY s' dX Hback) as (dW & db & ->).
  simpl in *.
  destruct (Hw k w Hk) as [[-> Hsw] | [-> Hsw]].
  - exists dW. rewrite lookup_insert_ne, lookup_insert_eq by done.
    split; [done |]. destruct (Hu "W" dW) as [[_ ->] | [? _]]; done.
  - exists db. rewrite lookup_insert_eq.
    split; [done |]. destruct (Hu "b" db) as [[? _] | [_ ->]]; done.
Qed.

(** Only the call protocol assigns [grad]. *)
Lemma Linear_exec_grad s o :
  is_call o = false → grad (base (Linear_exec s o)) = grad (base s).
Proof.
  destruct o as [X | X | dY | lr]; unfold Linear_exec; intros Hc; [| done | |].
  - apply Linear_forward_state.
  - by rewrite (proj2 (Linear_backward_state s dY)).
  - unfold _update_weights. by rewrite (proj1 (for_each_update_frame lr _ s)).
Qed.

Lemma Linear_run_grad s ops :
  existsb is_call ops = false → grad (base (Linear_run s ops)) = grad (base s).
Proof.
  revert s. induction ops as [|o ops IH]; intros s Hc; [done |].
  simpl in *. apply orb_false_elim in Hc as [Ho Hc].
  by rewrite IH, Linear_exec_grad.
Qed.

(** With an empty local-gradient cache, [backward] raises at its first
    line and changes nothing. *)
Lemma Linear_backward_unpopulated s dY :
  grad (base s) = ∅ → backward dY s = (s, Raise (KeyError "X")).
Proof. intros Hg. run. by rewrite Hg. Qed.

(** Only [backward] assigns [weight_update]. *)
Lemma Linear_exec_weight_update s o :
  is_backward o = false → weight_update (Linear_exec s o) = weight_update s.
Proof.
  destruct o as [X | X | dY | lr]; unfold Linear_exec; intros Hc; [| | done |].
  - apply Linear_forward_state.
  - apply Linear_call_state.
  - unfold _update_weights. by rewrite (proj1 (proj2 (for_each_update_frame lr _ s))).
Qed.

Lemma Linear_run_weight_update s ops :
  existsb is_backward ops = false →
  weight_update (Linear_run s ops) = weight_update s.
Proof.
  revert s. induction ops as [|o ops IH]; intros s Hc; [done |].
  simpl in *. apply orb_false_elim in Hc as [Ho Hc].
  by rewrite IH, Linear_exec_weight_update.
Qed.

End LinearHistory.

(** ** The Sigmoid unit, and the two units together *)

Section SigmoidFacts.
Context {T : Type} `{!Scalar T, !Functional T}.
Implicit Types (s : Function_state T) (X dY : ndarray T) (o : op T).

Ltac run :=
  unfold call, forward, backward, local_grad, Sigmoid,
    Sigmoid_forward, Sigmoid_backward, Sigmoid_local_grad,
    bind, ret, lift, modify, getattr_item, getitem; simpl.

Lemma nd_mul_same_shape (a b : ndarray T) :
  shape a = shape b → nd_mul a b = Ok (hadamard a b).
Proof.
  intros Hs. unfold nd_mul. rewrite broadcast2_same_shape by done.
  f_equal. apply tabulate_ext. intros i j Hi Hj.
  injection Hs as Hr Hc.
  by rewrite !get_broadcast_lt by lia.
Qed.

Lemma get_hadamard (a b : ndarray T) i j :
  i < nrows a → j < ncols a → get (hadamard a b) i j = fmul (get a i j) (get b i j).
Proof. intros. unfold hadamard. by rewrite get_tabulate. Qed.

Lemma get_nd_map (f : T → T) (a : ndarray T) i j :
  i < nrows a → j < ncols a → get (nd_map f a) i j = f (get a i j).
Proof. intros. unfold nd_map. by rewrite get_tabulate. Qed.

(** The call protocol on a Sigmoid unit: it cannot raise. *)
Lemma Sigmoid_call_run s X :
  call X s = (set_grad {[ "X" := sigmoid_prime X ]} s, Ok (sigmoid X)).
Proof. done. Qed.

(** [backward] on a Sigmoid unit assigns nothing. *)
Lemma Sigmoid_backward_state s dY : (backward dY s).1 = s.
Proof. run. by repeat case_match. Qed.

Lemma Sigmoid_backward_run s dY gX :
  grad s !! "X" = Some gX → shape dY = shape gX →
  backward dY s = (s, Ok (hadamard dY gX)).
Proof. intros Hg Hs. run. by rewrite Hg, nd_mul_same_shape. Qed.

Lemma Sigmoid_backward_unpopulated s dY :
  grad s = ∅ → backward dY s = (s, Raise (KeyError "X")).
Proof. intros Hg. run. by rewrite Hg. Qed.

Lemma Sigmoid_run_grad s ops :
  existsb is_call ops = false → grad (Sigmoid_run s ops) = grad s.
Proof.
  revert s. induction ops as [|o ops IH]; intros s Hc; [done |].
  simpl in *. apply orb_false_elim in Hc as [Ho Hc]. rewrite IH by done.
  destruct o as [X | X | dY | lr]; unfold Sigmoid_exec; [done | done | | done].
  by rewrite Sigmoid_backward_state.
Qed.

(** C4. A Linear unit with parameters [W] and [b] feeds a Sigmoid unit: the
    call protocol runs on a batch [X] and then on the Linear output [z];
    [dY] is passed to the Sigmoid unit's [backward] and what it returns to
    the Linear unit's [backward]. All four return, [z] is [X · W + b], and
    the Linear unit returns [(dY ⊙ σ'(z)) · Wᵗ], [σ'] being what
    [sigmoid_prime] does to an entry: its entry [(i, j)] is the sum over [k]
    of [dY[i,k] * σ'(z[i,k]) * W[j,k]]. *)
Theorem Linear_Sigmoid_chain_rule (sL : Layer_state T) s W b X dY batch in_dim out_dim :
  weight sL !! "W" = Some W → weight sL !! "b" = Some b →
  shape W = (in_dim, out_dim) → shape b = (1, out_dim) → shape X = (batch, in_dim) →
  shape dY = (batch, out_dim) →
  let z := affine X W b in
  let dX := matmul (hadamard dY (sigmoid_prime z)) (transpose W) in
  (call X sL).2 = Ok z
  ∧ (call z s).2 = Ok (sigmoid z)
  ∧ (backward dY (call z s).1).2 = Ok (hadamard dY (sigmoid_prime z))
  ∧ (backward (hadamard dY (sigmoid_prime z)) (call X sL).1).2 = Ok dX
  ∧ shape dX = (batch, in_dim)
  ∧ ∀ i j, i < batch → j < in_dim →
      get dX i j =
        fsum out_dim (λ k,
          fmul (fmul (get dY i k)
                     (logistic_prime
                        (fadd (fsum in_dim (λ l, fmul (get X i l) (get W l k))) (get b 0 k))))
               (get W j k)).
Proof.
  intros HW Hb SW Sb SX SdY z dX.
  pose proof (Linear_call_run sL W b X batch in_dim out_dim HW Hb SW Sb SX) as HcL.
  apply shape_eq in SW as [HWr HWc]. apply shape_eq in SX as [HXr HXc].
  apply shape_eq in SdY as [HYr HYc].
  assert (Sz : shape dY = shape (sigmoid_prime z)).
  { unfold shape. simpl. congruence. }
  split_and!.
  - by rewrite HcL.
  - done.
  - rewrite Sigmoid_call_run.
    by rewrite (Sigmoid_backward_run _ dY (sigmoid_prime z)).
  - rewrite HcL.
    unfold backward, Linear, Linear_backward, bind, lift, getattr_item, getitem, modify, ret.
    simpl. rewrite lookup_insert_ne, lookup_insert_ne, lookup_insert_eq by done.
    unfold np_dot. simpl. rewrite decide_True by congruence.
    rewrite lookup_insert_ne, lookup_insert_eq by done.
    rewrite lookup_insert_ne, lookup_insert_eq by done.
    rewrite decide_True by congruence. done.
  - unfold shape. simpl. congruence.
  - intros i j Hi Hj. subst dX.
    rewrite get_matmul by (simpl; lia). simpl. rewrite HYc.
    apply fsum_ext. intros k Hk.
    rewrite get_transpose, get_hadamard by lia.
    unfold sigmoid_prime. rewrite get_nd_map by (simpl; lia).
    subst z. unfold affine. rewrite get_tabulate by lia.
    unfold affine_entry. by rewrite HXc.
Qed.

(** C6. The call protocol returns what [forward] returns and leaves in
    [grad] what [local_grad] returns for the same input, one entry for each
    operand. On a Linear unit with parameters [W] and [b] that fit [X], these
    are [W] for the input, [X] for ['W'] and an array of ones shaped like
    [b] for ['b']; on a Sigmoid unit, [sigmoid_prime] of the input for the
    input. *)
Theorem call_caches_local_grad (sL : Layer_state T) s W b X Z batch in_dim out_dim :
  weight sL !! "W" = Some W → weight sL !! "b" = Some b →
  shape W = (in_dim, out_dim) → shape b = (1, out_dim) → shape X = (batch, in_dim) →
  let gL : gmap string (ndarray T) := {[ "X" := W; "W" := X; "b" := np_ones_like b ]} in
  let gS : gmap string (ndarray T) := {[ "X" := sigmoid_prime Z ]} in
  ((call X sL).2 = (forward X sL).2
   ∧ (∃ Y, (call X sL).2 = Ok Y)
   ∧ (local_grad X sL).2 = Ok gL
   ∧ grad (base (call X sL).1) = gL
   ∧ cache (base (call X sL).1) = cache (base (forward X sL).1)
   ∧ shape (np_ones_like b) = shape b
   ∧ ∀ j, j < out_dim → get (np_ones_like b) 0 j = fone)
  ∧ ((call Z s).2 = (forward Z s).2
     ∧ (∃ Y, (call Z s).2 = Ok Y)
     ∧ (local_grad Z s).2 = Ok gS
     ∧ grad (call Z s).1 = gS).
Proof.
  intros HW Hb SW Sb SX gL gS.
  rewrite (Linear_call_run sL W b X batch in_dim out_dim),
    (Linear_forward_run sL W b X batch in_dim out_dim) by done.
  apply shape_eq in Sb as [Hbr Hbc].
  split; split_and!; try done.
  - eauto.
  - unfold local_grad, Linear, Linear_local_grad, bind, getattr_item, getitem, ret.
    by rewrite HW, Hb.
  - intros j Hj. unfold np_ones_like. by rewrite get_tabulate by lia.
  - eauto.
Qed.

(** C8. A second run of the call protocol leaves a unit as the same run
    alone would have left it, and returns the same: on a Linear unit
    whenever the second input is one the unit accepts, on a Sigmoid unit
    always. Nothing of the first input stays in [cache] or [grad]. The same
    holds of [forward] run on its own. *)
Theorem call_replaces_caches (sL : Layer_state T) s x1 x2 Y2 :
  (call x2 sL).2 = Ok Y2 →
  (call x2 (call x1 sL).1 = call x2 sL
   ∧ forward x2 (forward x1 sL).1 = forward x2 sL)
  ∧ (call x2 (call x1 s).1 = call x2 s
     ∧ forward x2 (forward x1 s).1 = forward x2 s).
Proof.
  intros Hret. split; [| done].
  destruct (Linear_call_cases sL x2) as [[e He] | (W & b & XW2 & y2 & HW & Hb & Hd2 & Ha2 & H2)].
  { by rewrite He in Hret. }
  split.
  - destruct (Linear_call_cases sL x1) as [[e He] | (W' & b' & XW1 & y1 & _ & _ & _ & _ & H1)].
    { by rewrite He. }
    rewrite H1, H2. simpl.
    rewrite (Linear_call_ok _ x2 W b XW2 y2) by done.
    unfold Linear_called. simpl. do 3 f_equal.
    rewrite (insert_insert_ne _ "X" "output") by done.
    by rewrite !insert_insert_eq.
  - rewrite (Linear_forward_ok sL x2 W b XW2 y2) by done.
    destruct (Linear_forward_state sL x1) as (Ew & Eu & Eg).
    rewrite (Linear_forward_ok _ x2 W b XW2 y2) by (by rewrite ?Ew).
    f_equal. unfold set_base, set_cache. rewrite Ew, Eu, Eg. do 2 f_equal.
    unfold forward, Linear, Linear_forward, bind, lift, getattr_item, getitem, modify, ret.
    repeat case_match; simpl; try done.
    rewrite (insert_insert_ne _ "X" "output") by done.
    by rewrite !insert_insert_eq.
Qed.

(** C7. On a Linear unit and on a Sigmoid unit that were never run through
    the call protocol, whatever else was done to them, [backward] raises
    [KeyError] for the key ['X'] and changes nothing; on a Linear unit whose
    [weight_update] no [backward] has filled yet, [_update_weights] raises
    [KeyError] for a parameter key and changes nothing. *)
Theorem backward_update_before_predecessor
    (W0 b0 : ndarray T) (opsL opsS opsU : list (op T)) dY lr :
  existsb is_call opsL = false →
  existsb is_call opsS = false →
  weight_update (Linear_run (Linear_init W0 b0) opsU) = ∅ →
  let sL := Linear_run (Linear_init W0 b0) opsL in
  let sS := Sigmoid_run Function_init opsS in
  let sU := Linear_run (Linear_init W0 b0) opsU in
  backward dY sL = (sL, Raise (KeyError "X"))
  ∧ backward dY sS = (sS, Raise (KeyError "X"))
  ∧ ∃ k, (k = "W" ∨ k = "b") ∧ _update_weights lr sU = (sU, Raise (KeyError k)).
Proof.
  intros HL HS HU sL sS sU. split_and!.
  - apply Linear_backward_unpopulated. subst sL. by rewrite Linear_run_grad.
  - apply Sigmoid_backward_unpopulated. subst sS. by rewrite Sigmoid_run_grad.
  - assert (Hdom : dom (weight sU) = ({[ "W"; "b" ]} : gset string)).
    { subst sU. by rewrite Linear_run_weight_dom, Linear_init_weight_dom. }
    destruct (update_weights_unpopulated sU lr) as (k & Hk & Hraise).
    + intros Hemp. rewrite Hemp, dom_empty_L in Hdom. set_solver.
    + done.
    + exists k. split; [| done]. rewrite Hdom in Hk. set_solver.
Qed.

End SigmoidFacts.

(** ** The Sigmoid unit with the functions the spec describes *)

Section LogisticFacts.
Context {T : Type} `{!Scalar T, !Exponential T}.
Implicit Types (s : Function_state T) (X dY : ndarray T).

(** C5. After the call protocol has run on a Sigmoid unit with input [X],
    [grad] holds one array, under ['X'], of the shape of [X], whose entry
    [(i, j)] is [σ(x) · (1 − σ(x))] for [x = X[i,j]] and
    [σ(x) = 1 / (1 + e^(−x))]. [backward dY], for [dY] of the shape of [X],
    returns the array of that shape whose entry [(i, j)] is [dY[i,j]] times
    that cached entry, and leaves the unit as it was. *)
Theorem Sigmoid_local_gradient s X dY :
  shape dY = shape X →
  let σ := λ x : T, fdiv fone (fadd fone (fexp (fneg x))) in
  let s1 := (call X s).1 in
  ∃ gX dX,
    grad s1 = {[ "X" := gX ]}
    ∧ shape gX = shape X
    ∧ (∀ i j, i < nrows X → j < ncols X →
         get gX i j = fmul (σ (get X i j)) (fsub fone (σ (get X i j))))
    ∧ backward dY s1 = (s1, Ok dX)
    ∧ shape dX = shape dY
    ∧ (∀ i j, i < nrows X → j < ncols X →
         get dX i j = fmul (get dY i j) (get gX i j)).
Proof.
  intros Hs σ s1. subst s1. rewrite Sigmoid_call_run. simpl.
  exists (sigmoid_prime X), (hadamard dY (sigmoid_prime X)).
  injection Hs as Hr Hc.
  split_and!.
  - done.
  - done.
  - intros i j Hi Hj. unfold sigmoid_prime. by rewrite get_nd_map.
  - apply (Sigmoid_backward_run _ dY (sigmoid_prime X)); [done |].
    unfold shape. simpl. congruence.
  - done.
  - intros i j Hi Hj. by rewrite get_hadamard by lia.
Qed.

End LogisticFacts.

(** Over the real numbers, the entry-wise function of [sigmoid_prime] is the
    derivative of the entry-wise function of [sigmoid]. *)
Lemma spec_logistic_derivative (x : R) :
  derivable_pt_lim spec_logistic x (spec_logistic_prime x).
Proof.
  assert (Hpos : (1 + exp (- x) ≠ 0)%R).
  { pose proof (exp_pos (- x)). lra. }
  assert (Hinner : derivable_pt_lim (λ y, 1 + exp (- y))%R x (0 + exp (- x) * - 1)%R).
  { apply (derivable_pt_lim_plus (fct_cte 1) (comp exp (opp_fct id))).
    - apply derivable_pt_lim_const.
    - apply (derivable_pt_lim_comp (opp_fct id) exp).
      + apply derivable_pt_lim_opp, derivable_pt_lim_id.
      + apply derivable_pt_lim_exp. }
  pose proof (derivable_pt_lim_div (fct_cte 1) (λ y, 1 + exp (- y))%R x _ _
                (derivable_pt_lim_const 1 x) Hinner Hpos) as Hdiv.
  unfold spec_logistic_prime, spec_logistic. simpl.
  replace (1 / (1 + exp (- x)) * (1 - 1 / (1 + exp (- x))))%R
    with ((0 * (1 + exp (- x)) - (0 + exp (- x) * - 1) * fct_cte 1 x) / (1 + exp (- x))²)%R.
  - exact Hdiv.
  - unfold fct_cte, Rsqr. field. exact Hpos.
Qed.

(** C3 on the sample unit. *)
Lemma Linear_forward_affine_witness :
  ∃ Y, (forward Sample.X Sample.s0).2 = Ok Y
       ∧ shape Y = (4, 2)
       ∧ well_shaped Y
       ∧ ∀ i j, i < 4 → j < 2 →
           get Y i j =
             fadd (fsum 3 (λ k, fmul (get Sample.X i k) (get Sample.W0 k j))) (get Sample.b0 0 j).
Proof.
  apply (Linear_forward_affine Sample.s0 Sample.W0 Sample.b0 Sample.X 4 3 2);
    reflexivity.
Defined.


(** The numbers behind the two statements above. *)
Example sample_forward :
  (call Sample.X Sample.s0).2 = Ok (NdArray 4 2 [[11; 22]; [13; 24]; [19; 32]; [17; 30]]%Z).
Proof. reflexivity. Qed.

Example sample_backward :
  (backward Sample.dY (call Sample.X Sample.s0).1).2
  = Ok (NdArray 4 3 [[3; 7; 11]; [3; 7; 11]; [3; 7; 11]; [5; 11; 17]]%Z).
Proof. reflexivity. Qed.

Example sample_weight_update :
  weight_update (backward Sample.dY (call Sample.X Sample.s0).1).1
  = {[ "W" := NdArray 3 2 [[4; 6]; [2; 2]; [2; 3]]%Z; "b" := NdArray 1 2 [[4; 5]]%Z ]}.
Proof. reflexivity. Qed.

(** C9 on the sample unit, after one run of the call protocol. *)
Lemma Linear_backward_keys_witness :
  dom (weight_update Sample.s2) = dom (weight Sample.s2)
  ∧ dom (weight Sample.s2) = ({[ "W"; "b" ]} : gset string).
Proof.
  apply (Linear_backward_keys 3 2 Sample.s1 Sample.dY Sample.s2
           (matmul Sample.dY (transpose Sample.W0))).
  - exists Sample.W0, Sample.b0, [OpCall Sample.X].
    split_and!; [lia | reflexivity | reflexivity | reflexivity].
  - reflexivity.
Defined.

(** Every parameter of the sample unit has a stored gradient of its shape
    after [backward]. *)
Lemma sample_populated k w :
  weight Sample.s2 !! k = Some w →
  ∃ g, weight_update Sample.s2 !! k = Some g ∧ shape g = shape w.
Proof.
  intros Hk.
  change ((<["b" := Sample.b0]> (<["W" := Sample.W0]> ∅) : gmap string (ndarray Z)) !! k
          = Some w) in Hk.
  apply lookup_insert_Some in Hk as [[<- <-] | [_ Hk]].
  - eexists. split; reflexivity.
  - apply lookup_insert_Some in Hk as [[<- <-] | [_ Hk]]; [| done].
    eexists. split; reflexivity.
Defined.



(** On [float64] with a finite gradient, the update with [lr = 0] leaves the
    parameters as they were. *)
Example float_lr_zero_finite :
  weight (_update_weights 0%float
            (backward (NdArray 1 1 [[1%float]]) (call (NdArray 1 1 [[2%float]]) Sample.Fs0).1).1).1
  = weight Sample.Fs0.
Proof. reflexivity. Qed.

Example sample_update :
  weight (_update_weights 1%Z Sample.s2).1
  = {[ "W" := NdArray 3 2 [[-3; -4]; [1; 2]; [3; 3]]%Z; "b" := NdArray 1 2 [[6; 15]]%Z ]}.
Proof. reflexivity. Qed.

(** C4 on a Linear unit over the reals that feeds a Sigmoid unit. *)
Lemma Linear_Sigmoid_chain_rule_witness :
  (backward
     (hadamard Sample.RdY (sigmoid_prime (affine Sample.RX Sample.RW0 Sample.Rb0)))
     (call Sample.RX Sample.Rs0).1).2
  = Ok (matmul
          (hadamard Sample.RdY (sigmoid_prime (affine Sample.RX Sample.RW0 Sample.Rb0)))
          (transpose Sample.RW0)).
Proof.
  apply (Linear_Sigmoid_chain_rule Sample.Rs0 Function_init
           Sample.RW0 Sample.Rb0 Sample.RX Sample.RdY 1 2 1);
    reflexivity.
Defined.

(** C5 on a Sigmoid unit over the reals. *)
Lemma Sigmoid_local_gradient_witness :
  ∃ gX dX,
    grad (call Sample.RX Function_init).1 = {[ "X" := gX ]}
    ∧ backward Sample.RX' (call Sample.RX Function_init).1
      = ((call Sample.RX Function_init).1, Ok dX)
    ∧ ∀ i j, i < 1 → j < 2 → get dX i j = (get Sample.RX' i j * get gX i j)%R.
Proof.
  destruct (Sigmoid_local_gradient Function_init Sample.RX Sample.RX')
    as (gX & dX & Hg & _ & _ & Hback & _ & Hentries); [reflexivity |].
  exists gX, dX. split_and!; [exact Hg | exact Hback | exact Hentries].
Defined.

(** C6 on the Linear unit over the reals and a Sigmoid unit. *)
Lemma call_caches_local_grad_witness :
  grad (base (call Sample.RX Sample.Rs0).1)
  = {[ "X" := Sample.RW0; "W" := Sample.RX; "b" := np_ones_like Sample.Rb0 ]}
  ∧ grad (call Sample.RX' Function_init).1 = {[ "X" := sigmoid_prime Sample.RX' ]}.
Proof.
  destruct (call_caches_local_grad Sample.Rs0 Function_init
              Sample.RW0 Sample.Rb0 Sample.RX Sample.RX' 1 2 1)
    as [(_ & _ & _ & HL & _) (_ & _ & _ & HS)]; try reflexivity.
  split; [exact HL | exact HS].
Defined.

(** C8 on the same two units. *)
Lemma call_replaces_caches_witness :
  call Sample.RX' (call Sample.RX Sample.Rs0).1 = call Sample.RX' Sample.Rs0
  ∧ call Sample.RX' (call Sample.RX Function_init).1 = call Sample.RX' Function_init.
Proof.
  destruct (call_replaces_caches Sample.Rs0 Function_init Sample.RX Sample.RX'
              (affine Sample.RX' Sample.RW0 Sample.Rb0))
    as [[HL _] [HS _]]; [reflexivity |].
  split; [exact HL | exact HS].
Defined.

(** C7 on units that were driven, but not in the order the protocol asks. *)
Lemma backward_update_before_predecessor_witness :
  let sL := Linear_run Sample.Rs0 [OpForward Sample.RX; OpUpdate 1%R] in
  let sS := Sigmoid_run Function_init [OpForward Sample.RX; OpBackward Sample.RX] in
  let sU := Linear_run Sample.Rs0 [OpCall Sample.RX; OpUpdate 1%R] in
  backward Sample.RdY sL = (sL, Raise (KeyError "X"))
  ∧ backward Sample.RdY sS = (sS, Raise (KeyError "X"))
  ∧ ∃ k, (k = "W" ∨ k = "b") ∧ _update_weights 1%R sU = (sU, Raise (KeyError k)).
Proof.
  apply (backward_update_before_predecessor Sample.RW0 Sample.Rb0
           [OpForward Sample.RX; OpUpdate 1%R]
           [OpForward Sample.RX; OpBackward Sample.RX]
           [OpCall Sample.RX; OpUpdate 1%R] Sample.RdY 1%R);
    reflexivity.
Defined.

(** ** The Linear unit under any driver *)

Section LinearProtocol.
Context {T : Type} `{!Scalar T}.
Implicit Types (s : Layer_state T) (W b X dY : ndarray T) (o : op T).

Ltac run :=
  unfold call, forward, backward, local_grad, Linear,
    Linear_forward, Linear_backward, Linear_local_grad,
    bind, ret, lift, modify, getattr_item, getitem; simpl.

Lemma Linear_reachable_exec in_dim out_dim s o :
  Linear_reachable in_dim out_dim s → Linear_reachable in_dim out_dim (Linear_exec s o).
Proof.
  intros (W0 & b0 & ops & Hin & SW & Sb & ->).
  exists W0, b0, (ops ++ [o]). split_and!; try done.
  unfold Linear_run. by rewrite foldl_app.
Qed.

Lemma Linear_reachable_run in_dim out_dim s ops :
  Linear_reachable in_dim out_dim s → Linear_reachable in_dim out_dim (Linear_run s ops).
Proof.
  revert s. induction ops as [|o ops IH]; intros s Hs; [done |].
  simpl. by apply IH, Linear_reachable_exec.
Qed.

(** The two parameters are there, with the shapes of the construction. *)
Lemma Linear_reachable_weights in_dim out_dim s :
  Linear_reachable in_dim out_dim s →
  ∃ W b, weight s !! "W" = Some W ∧ weight s !! "b" = Some b
         ∧ shape W = (in_dim, out_dim) ∧ shape b = (1, out_dim).
Proof.
  intros Hs.
  pose proof (Linear_reachable_weight_dom in_dim out_dim s Hs) as Hdom.
  destruct (Linear_reachable_shapes in_dim out_dim s Hs) as (Hw & _).
  assert (HW : is_Some (weight s !! "W")) by (apply elem_of_dom; rewrite Hdom; set_solver).
  assert (Hb : is_Some (weight s !! "b")) by (apply elem_of_dom; rewrite Hdom; set_solver).
  destruct HW as [W HW], Hb as [b Hb]. exists W, b.
  destruct (Hw "W" W HW) as [[_ SW] | [? _]]; [| done].
  destruct (Hw "b" b Hb) as [[? _] | [_ Sb]]; [done |].
  done.
Qed.

Lemma Linear_exec_caches s o : Linear_caches s → Linear_caches (Linear_exec s o).
Proof.
  intros [Hu Hg]. destruct o as [X | X | dY | lr]; unfold Linear_exec.
  - destruct (Linear_forward_state s X) as (_ & Eu & Eg).
    unfold Linear_caches. rewrite Eu, Eg. split; [done |].
    intros HW. destruct (Hg HW) as [HX HcX]. split; [done |].
    revert HcX. run. repeat case_match; simpl; try done.
    intros _. rewrite lookup_insert_ne, lookup_insert_eq by done. eauto.
  - destruct (Linear_call_cases s X) as [[e ->] | (W & b & XW & Y & _ & _ & _ & _ & ->)];
      [done |].
    split; [done |]. intros _. simpl.
    split; [by eexists |].
    rewrite lookup_insert_ne, lookup_insert_eq by done. eauto.
  - destruct (Linear_backward_cases s dY) as [[e ->] | (gX & gW & _ & _ & _ & _ & ->)];
      [done |].
    split; [| done]. right. simpl. split; by eexists.
  - unfold _update_weights.
    destruct (for_each_update_frame lr (map_to_list (weight s)).*1 s) as (Eb & Eu & _).
    unfold Linear_caches. by rewrite Eb, Eu.
Qed.

Lemma Linear_reachable_caches in_dim out_dim s :
  Linear_reachable in_dim out_dim s → Linear_caches s.
Proof.
  intros (W0 & b0 & ops & _ & _ & _ & ->).
  assert (Hinit : Linear_caches (Linear_init W0 b0)).
  { split; [by left |]. simpl. by intros [? ?]. }
  revert Hinit. generalize (Linear_init W0 b0).
  induction ops as [|o ops IH]; intros s Hs; [done |].
  simpl. by apply IH, Linear_exec_caches.
Qed.

(** X1. A Linear unit built with [in_dim] and [out_dim] keeps, under any
    driver, exactly the two parameters ['W'] of shape in-dim × out-dim and
    ['b'] of shape 1 × out-dim: no operation adds, drops or resizes one. *)
Theorem Linear_parameters_never_resized in_dim out_dim s :
  Linear_reachable in_dim out_dim s →
  ∃ W b, weight s = {[ "W" := W; "b" := b ]}
         ∧ shape W = (in_dim, out_dim) ∧ shape b = (1, out_dim).
Proof.
  intros Hs.
  destruct (Linear_reachable_weights in_dim out_dim s Hs) as (W & b & HW & Hb & SW & Sb).
  exists W, b. split_and!; [| done | done].
  apply map_eq. intros k.
  destruct (decide (k = "W")) as [-> | HkW]; [by rewrite HW |].
  destruct (decide (k = "b")) as [-> | Hkb]; [by rewrite Hb |].
  rewrite lookup_insert_ne, lookup_singleton_ne by done.
  apply not_elem_of_dom.
  rewrite (Linear_reachable_weight_dom in_dim out_dim s Hs).
  rewrite not_elem_of_union, !not_elem_of_singleton. done.
Qed.

(** X2. On a Linear unit under any driver, the call protocol and [forward]
    accept an input exactly when it has in-dim columns, whatever the number of
    rows: then they return [X · W + b] for the current parameters; otherwise
    they raise [ValueError] and change nothing. *)
Theorem Linear_call_accepts in_dim out_dim s X :
  Linear_reachable in_dim out_dim s →
  ∃ W b, weight s !! "W" = Some W ∧ weight s !! "b" = Some b ∧
    if decide (ncols X = in_dim)
    then call X s = (Linear_called s X W b (affine X W b), Ok (affine X W b))
         ∧ (forward X s).2 = Ok (affine X W b)
         ∧ shape (affine X W b) = (nrows X, out_dim)
    else call X s = (s, Raise ValueError) ∧ forward X s = (s, Raise ValueError).
Proof.
  intros Hs.
  destruct (Linear_reachable_weights in_dim out_dim s Hs) as (W & b & HW & Hb & SW & Sb).
  exists W, b. split_and!; [done | done |].
  case_decide as Hin.
  - assert (SX : shape X = (nrows X, in_dim)) by (by rewrite <- Hin).
    split_and!.
    + by rewrite (Linear_call_run s W b X (nrows X) in_dim out_dim).
    + by rewrite (Linear_forward_run s W b X (nrows X) in_dim out_dim).
    + apply shape_eq in SW as [_ HWc]. unfold shape. simpl. by rewrite HWc.
  - apply shape_eq in SW as [HWr _].
    split; run; rewrite HW; unfold np_dot;
      rewrite decide_False by congruence; done.
Qed.


(** With both gradients stored, the update returns and takes one descent
    step on each parameter. *)
Lemma Linear_update_ok in_dim out_dim s lr :
  Linear_reachable in_dim out_dim s → weight_update s ≠ ∅ →
  ∃ W b dW db s',
    weight s !! "W" = Some W ∧ weight s !! "b" = Some b
    ∧ weight_update s !! "W" = Some dW ∧ weight_update s !! "b" = Some db
    ∧ _update_weights lr s = (s', Ok tt)
    ∧ base s' = base s ∧ weight_update s' = weight_update s
    ∧ weight s' !! "W" = Some (descent lr W dW)
    ∧ weight s' !! "b" = Some (descent lr b db).
Proof.
  intros Hs Hne.
  destruct (Linear_reachable_weights in_dim out_dim s Hs) as (W & b & HW & Hb & SW & Sb).
  destruct (Linear_reachable_caches in_dim out_dim s Hs) as [[Hemp | [[dW HdW] [db Hdb]]] _];
    [done |].
  destruct (Linear_reachable_shapes in_dim out_dim s Hs) as (Hw & _ & _ & Hu).
  destruct (for_each_update_ok lr (map_to_list (weight s)).*1 s) as (s' & Hrun & _ & Hin).
  { apply NoDup_fst_map_to_list. }
  { intros k [w Hk]%elem_of_weight_keys.
    destruct (Hw k w Hk) as [[-> Sw] | [-> Sw]].
    - exists w, dW. split_and!; try done.
      destruct (Hu "W" dW HdW) as [[_ ->] | [? _]]; done.
    - exists w, db. split_and!; try done.
      destruct (Hu "b" db Hdb) as [[? _] | [_ ->]]; done. }
  pose proof (for_each_update_frame lr (map_to_list (weight s)).*1 s) as Hfr.
  simpl in Hfr. rewrite Hrun in Hfr. destruct Hfr as (Eb & Eu & _).
  exists W, b, dW, db, s'. split_and!; try done.
  - apply Hin; [| done | done]. apply elem_of_weight_keys. eauto.
  - apply Hin; [| done | done]. apply elem_of_weight_keys. eauto.
Qed.

(** X4. On a Linear unit under any driver, [_update_weights] returns exactly
    when [weight_update] is not empty, that is when some [backward] has
    returned before; on an empty [weight_update] it raises [KeyError] and
    changes nothing. *)
Theorem Linear_update_accepts in_dim out_dim s lr :
  Linear_reachable in_dim out_dim s →
  (weight_update s ≠ ∅ ∧ (_update_weights lr s).2 = Ok tt)
  ∨ (weight_update s = ∅ ∧ ∃ k, _update_weights lr s = (s, Raise (KeyError k))).
Proof.
  intros Hs. destruct (decide (weight_update s = ∅)) as [Hemp | Hne].
  - right. split; [done |].
    destruct (update_weights_unpopulated s lr) as (k & _ & Hk); [| done | eauto].
    intros Hw. pose proof (Linear_reachable_weight_dom in_dim out_dim s Hs) as Hdom.
    rewrite Hw, dom_empty_L in Hdom. set_solver.
  - left. split; [done |].
    destruct (Linear_update_ok in_dim out_dim s lr Hs Hne)
      as (W & b & dW & db & s' & _ & _ & _ & _ & Hrun & _).
    by rewrite Hrun.
Qed.

(** The state after the call protocol has returned is ready for [backward]. *)
Lemma Linear_backward_after_call s X W b Y dY :
  ncols dY = ncols W → nrows dY = nrows X →
  backward dY (Linear_called s X W b Y) =
    (set_weight_update
       {[ "W" := matmul (transpose X) dY; "b" := np_sum_axis0_keepdims dY ]}
       (Linear_called s X W b Y),
     Ok (matmul dY (transpose W))).
Proof.
  intros Hc Hr.
  destruct (Linear_called_grad s X W b Y) as [EX EW]. simpl in EX, EW.
  run. rewrite EX. unfold np_dot. simpl.
  rewrite decide_True by congruence.
  rewrite lookup_insert_ne, lookup_insert_eq by done.
  rewrite EW. rewrite decide_True by congruence. done.
Qed.

(** X5. [forward], the call protocol and [backward] of a Linear unit either
    return or leave every attribute as it was: on any state and any argument,
    a raise comes before the first assignment. *)
Theorem Linear_raise_changes_nothing s X dY :
  ((∃ Y, (forward X s).2 = Ok Y) ∨ ∃ e, forward X s = (s, Raise e))
  ∧ ((∃ Y, (call X s).2 = Ok Y) ∨ ∃ e, call X s = (s, Raise e))
  ∧ ((∃ dX, (backward dY s).2 = Ok dX) ∨ ∃ e, backward dY s = (s, Raise e)).
Proof.
  split_and!.
  - run. repeat case_match; simplify_eq/=; eauto.
  - destruct (Linear_call_cases s X) as [He | (W & b & XW & Y & _ & _ & _ & _ & ->)]; eauto.
  - destruct (Linear_backward_cases s dY) as [He | (gX & gW & _ & _ & _ & _ & ->)]; eauto.
Qed.

(** A [backward] that returns does not look at [weight_update]. *)
Lemma Linear_backward_set_weight_update s u dY s' dX :
  backward dY s = (s', Ok dX) → backward dY (set_weight_update u s) = (s', Ok dX).
Proof. run. repeat case_match; intros; by simplify_eq/=. Qed.

(** X6. [backward] assigns [weight_update] afresh: a [backward] that returns
    leaves the unit as if no [backward] had been called before it, so the
    gradients of two calls are never added up. *)
Theorem Linear_backward_replaces_weight_update (s : Layer_state T) dY1 dY2 dX :
  (backward dY2 s).2 = Ok dX →
  backward dY2 (backward dY1 s).1 = backward dY2 s.
Proof.
  intros Hret.
  destruct (backward dY2 s) as [s2 r2] eqn:H2. simpl in Hret. subst r2.
  destruct (Linear_backward_cases s dY1) as [[e ->] | (gX & gW & _ & _ & _ & _ & ->)];
    [done |].
  cbn [fst]. by apply Linear_backward_set_weight_update.
Qed.

(** X7. The call protocol stores what it was given and what it returns: after
    it has returned [Y] for [X], [cache] holds [X] under ['X'] and [Y] under
    ['output'], every other entry of [cache] is as before, and [grad] holds
    [X] under ['W'] and the parameter ['W'] under ['X']. *)
Theorem Linear_call_cache s X s' Y :
  call X s = (s', Ok Y) →
  cache (base s') !! "X" = Some X
  ∧ cache (base s') !! "output" = Some Y
  ∧ (∀ k, k ≠ "X" → k ≠ "output" → cache (base s') !! k = cache (base s) !! k)
  ∧ grad (base s') !! "W" = Some X
  ∧ grad (base s') !! "X" = weight s !! "W".
Proof.
  intros Hcall.
  destruct (Linear_call_cases s X) as [[e He] | (W & b & XW & Y' & HW & _ & _ & _ & H)];
    [congruence |].
  rewrite H in Hcall. simplify_eq. simpl. split_and!.
  - by rewrite lookup_insert_ne, lookup_insert_eq.
  - by rewrite lookup_insert_eq.
  - intros k HkX Hko. by rewrite !lookup_insert_ne.
  - done.
  - by rewrite HW.
Qed.

(** X8. [backward] takes its transposed input from [grad], not from
    [cache]: when [forward] is run directly on [X2] after the call protocol
    has run on [X1], [cache] holds [X2] but [backward] still returns and
    stores the gradients for [X1]. *)
Theorem Linear_backward_after_direct_forward s W b X1 X2 dY in_dim out_dim :
  weight s !! "W" = Some W → weight s !! "b" = Some b →
  shape W = (in_dim, out_dim) → shape b = (1, out_dim) →
  ncols X1 = in_dim → ncols X2 = in_dim →
  shape dY = (nrows X1, out_dim) →
  let s2 := (forward X2 (call X1 s).1).1 in
  cache (base s2) !! "X" = Some X2
  ∧ backward dY s2 =
      (set_weight_update
         {[ "W" := matmul (transpose X1) dY; "b" := np_sum_axis0_keepdims dY ]} s2,
       Ok (matmul dY (transpose W))).
Proof.
  intros HW Hb SW Sb H1 H2 [HYr HYc]%shape_eq s2. subst s2.
  assert (SX1 : shape X1 = (nrows X1, in_dim)) by (by rewrite <- H1).
  assert (SX2 : shape X2 = (nrows X2, in_dim)) by (by rewrite <- H2).
  destruct (np_dot_add_affine X1 W b (nrows X1) in_dim out_dim SW Sb SX1) as [Hd1 Ha1].
  destruct (np_dot_add_affine X2 W b (nrows X2) in_dim out_dim SW Sb SX2) as [Hd2 Ha2].
  rewrite (Linear_call_ok s X1 W b (matmul X1 W) (affine X1 W b)) by done. cbn [fst].
  rewrite (Linear_forward_ok _ X2 W b (matmul X2 W) (affine X2 W b)) by done. cbn [fst].
  apply shape_eq in SW as [HWr HWc].
  destruct (Linear_called_grad s X1 W b (affine X1 W b)) as [EX EW]. simpl in EX, EW.
  split.
  - simpl. by rewrite lookup_insert_ne, lookup_insert_eq.
  - run. rewrite EX. unfold np_dot. simpl.
    rewrite decide_True by congruence.
    rewrite lookup_insert_ne, lookup_insert_eq by done.
    rewrite EW. rewrite decide_True by congruence. done.
Qed.
(** What [backward] returns depends on [cache] and [grad] only. *)
Lemma Linear_backward_base s s' dY :
  base s = base s' → (backward dY s).2 = (backward dY s').2.
Proof. intros Hb. run. rewrite Hb. by repeat case_match. Qed.

(** One step of training on a Linear unit: the call protocol, [backward] and
    the update, all three returning. *)
Lemma Linear_step_run in_dim out_dim s X dY lr :
  Linear_reachable in_dim out_dim s →
  ncols X = in_dim → shape dY = (nrows X, out_dim) →
  ∃ W b,
    weight s !! "W" = Some W ∧ weight s !! "b" = Some b
    ∧ shape W = (in_dim, out_dim) ∧ shape b = (1, out_dim)
    ∧ base (Linear_run s [OpCall X; OpBackward dY; OpUpdate lr])
      = base (Linear_called s X W b (affine X W b))
    ∧ weight (Linear_run s [OpCall X; OpBackward dY; OpUpdate lr]) !! "W"
      = Some (descent lr W (matmul (transpose X) dY))
    ∧ weight (Linear_run s [OpCall X; OpBackward dY; OpUpdate lr]) !! "b"
      = Some (descent lr b (np_sum_axis0_keepdims dY)).
Proof.
  intros Hs Hin [HYr HYc]%shape_eq.
  destruct (Linear_reachable_weights in_dim out_dim s Hs) as (W & b & HW & Hb & SW & Sb).
  exists W, b. split_and!; try done.
  all: pose proof (Linear_reachable_run in_dim out_dim s [OpCall X; OpBackward dY] Hs) as Hs2.
  all: revert Hs2; unfold Linear_run; cbn [foldl Linear_exec].
  all: assert (SX : shape X = (nrows X, in_dim)) by (by rewrite <- Hin).
  all: rewrite (Linear_call_run s W b X (nrows X) in_dim out_dim) by done; cbn [fst].
  all: change {| base := _; weight := weight s; weight_update := weight_update s |}
         with (Linear_called s X W b (affine X W b)).
  all: rewrite Linear_backward_after_call
         by (apply shape_eq in SW as [_ HWc]; congruence); cbn [fst].
  all: intros Hs2.
  all: destruct (Linear_update_ok in_dim out_dim _ lr Hs2)
         as (W' & b' & dW & db & s3 & HW' & Hb' & HdW & Hdb & Hrun & Eb & _ & EW & Ebb);
         [by intros Hemp%(f_equal (lookup "W")) |].
  all: rewrite Hrun; cbn [fst].
  all: simpl in HW', Hb', HdW, Hdb, Eb.
  all: rewrite lookup_insert_eq in HdW.
  all: rewrite lookup_insert_ne, lookup_singleton_eq in Hdb by done.
  all: simplify_eq; done.
Qed.

(** X9. [backward] uses the ['W'] that was current when the call protocol
    ran: after a training step (call protocol, [backward], update) the
    parameter ['W'] has moved, but a further [backward] without a new run of
    the call protocol still multiplies by the transpose of the old ['W']. *)
Theorem Linear_backward_uses_call_time_weight in_dim out_dim s X dY dY' lr :
  Linear_reachable in_dim out_dim s →
  ncols X = in_dim → shape dY = (nrows X, out_dim) → shape dY' = (nrows X, out_dim) →
  let s3 := Linear_run s [OpCall X; OpBackward dY; OpUpdate lr] in
  ∃ W, weight s !! "W" = Some W
       ∧ weight s3 !! "W" = Some (descent lr W (matmul (transpose X) dY))
       ∧ (backward dY' s3).2 = Ok (matmul dY' (transpose W)).
Proof.
  intros Hs Hin SY SY' s3. subst s3.
  destruct (Linear_step_run in_dim out_dim s X dY lr Hs Hin SY)
    as (W & b & HW & Hb & SW & Sb & Ebase & EW & _).
  exists W. split_and!; [done | done |].
  rewrite (Linear_backward_base _ (Linear_called s X W b (affine X W b)) dY' Ebase).
  apply shape_eq in SW as [_ HWc]. apply shape_eq in SY' as [HYr HYc].
  rewrite Linear_backward_after_call by congruence. done.
Qed.

(** X10. A training step on a Linear unit under any driver, with an input of
    in-dim columns and an output gradient of the shape of the output: all
    three operations return, the parameters become [W − lr × Xᵗ · dY] and
    [b − lr × column sums of dY], and the next run of the call protocol
    computes with these. *)
Theorem Linear_training_step in_dim out_dim s X dY lr X' :
  Linear_reachable in_dim out_dim s →
  ncols X = in_dim → shape dY = (nrows X, out_dim) → ncols X' = in_dim →
  let s3 := Linear_run s [OpCall X; OpBackward dY; OpUpdate lr] in
  ∃ W b,
    weight s = {[ "W" := W; "b" := b ]}
    ∧ weight s3
      = {[ "W" := descent lr W (matmul (transpose X) dY);
           "b" := descent lr b (np_sum_axis0_keepdims dY) ]}
    ∧ (call X' s3).2
      = Ok (affine X' (descent lr W (matmul (transpose X) dY))
                      (descent lr b (np_sum_axis0_keepdims dY))).
Proof.
  intros Hs Hin SY Hin' s3. subst s3.
  destruct (Linear_step_run in_dim out_dim s X dY lr Hs Hin SY)
    as (W & b & HW & Hb & SW & Sb & _ & EW & Eb).
  pose proof (Linear_reachable_run in_dim out_dim s
                [OpCall X; OpBackward dY; OpUpdate lr] Hs) as Hs3.
  exists W, b. split_and!.
  - apply map_eq. intros k.
    destruct (decide (k = "W")) as [-> | HkW]; [by rewrite HW |].
    destruct (decide (k = "b")) as [-> | Hkb]; [by rewrite Hb |].
    rewrite lookup_insert_ne, lookup_singleton_ne by done.
    apply not_elem_of_dom. rewrite (Linear_reachable_weight_dom in_dim out_dim s Hs).
    rewrite not_elem_of_union, !not_elem_of_singleton. done.
  - apply map_eq. intros k.
    destruct (decide (k = "W")) as [-> | HkW]; [by rewrite EW |].
    destruct (decide (k = "b")) as [-> | Hkb]; [by rewrite Eb |].
    rewrite lookup_insert_ne, lookup_singleton_ne by done.
    apply not_elem_of_dom. rewrite (Linear_reachable_weight_dom in_dim out_dim _ Hs3).
    rewrite not_elem_of_union, !not_elem_of_singleton. done.
  - assert (SX' : shape X' = (nrows X', in_dim)) by (by rewrite <- Hin').
    by rewrite (Linear_call_run _ _ _ X' (nrows X') in_dim out_dim EW Eb).
Qed.

(** X11. An empty batch is accepted: with an input of no rows, the call
    protocol returns an output of no rows, and [backward] on an output
    gradient of no rows stores gradients that are zero everywhere. *)
Theorem Linear_empty_batch s W b X dY in_dim out_dim :
  weight s !! "W" = Some W → weight s !! "b" = Some b →
  shape W = (in_dim, out_dim) → shape b = (1, out_dim) →
  shape X = (0, in_dim) → shape dY = (0, out_dim) →
  (call X s).2 = Ok (NdArray 0 out_dim [])
  ∧ (backward dY (call X s).1).2 = Ok (NdArray 0 in_dim [])
  ∧ weight_update (backward dY (call X s).1).1
    = {[ "W" := tabulate in_dim out_dim (λ _ _, fzero);
         "b" := tabulate 1 out_dim (λ _ _, fzero) ]}.
Proof.
  intros HW Hb SW Sb SX SY.
  destruct (np_dot_add_affine X W b 0 in_dim out_dim SW Sb SX) as [Hd Ha].
  rewrite (Linear_call_ok s X W b (matmul X W) (affine X W b)) by done. cbn [fst snd].
  apply shape_eq in SW as [HWr HWc]. apply shape_eq in SX as [HXr HXc].
  apply shape_eq in SY as [HYr HYc].
  rewrite Linear_backward_after_call by congruence. cbn [fst snd].
  split_and!.
  - unfold affine, tabulate. by rewrite HXr, HWc.
  - unfold matmul, tabulate. simpl. by rewrite HYr, HWr.
  - simpl. f_equal; [| f_equal].
    + unfold matmul. simpl. rewrite HXc, HYc, HXr. done.
    + unfold np_sum_axis0_keepdims. rewrite HYc, HYr. done.
Qed.

End LinearProtocol.

(** ** The update of a Layer, again *)

Section LayerUpdate.
Context {T : Type} `{!Scalar T}.
Implicit Types (s : Layer_state T) (w g : ndarray T) (lr : T).

(** The update on a Layer in which every parameter has a stored gradient of
    its shape. *)
Lemma update_weights_ok s lr :
  (∀ k w, weight s !! k = Some w →
     ∃ g, weight_update s !! k = Some g ∧ shape g = shape w) →
  ∃ s', _update_weights lr s = (s', Ok tt)
        ∧ base s' = base s ∧ weight_update s' = weight_update s
        ∧ dom (weight s') = dom (weight s)
        ∧ ∀ k w g, weight s !! k = Some w → weight_update s !! k = Some g →
            weight s' !! k = Some (descent lr w g).
Proof.
  intros Hpop.
  destruct (for_each_update_ok lr (map_to_list (weight s)).*1 s) as (s' & Hrun & _ & Hin).
  { apply NoDup_fst_map_to_list. }
  { intros k [w Hw]%elem_of_weight_keys. destruct (Hpop k w Hw) as (g & Hg & Hs). eauto. }
  pose proof (for_each_update_frame lr (map_to_list (weight s)).*1 s) as Hfr.
  simpl in Hfr. rewrite Hrun in Hfr. destruct Hfr as (Eb & Eu & Ed).
  exists s'. split_and!; try done.
  intros k w g Hw Hg. apply Hin; [| done | done]. apply elem_of_weight_keys. eauto.
Qed.

(** X12. [_update_weights] does not use up the stored gradients: a second
    update without a [backward] in between returns as well and takes a second
    step with the same gradient, so that every parameter ends as
    [(w − lr1 × g) − lr2 × g]. *)
Theorem update_reuses_stored_gradient s lr1 lr2 :
  (∀ k w, weight s !! k = Some w →
     ∃ g, weight_update s !! k = Some g ∧ shape g = shape w) →
  ∃ s1 s2,
    _update_weights lr1 s = (s1, Ok tt)
    ∧ _update_weights lr2 s1 = (s2, Ok tt)
    ∧ weight_update s2 = weight_update s
    ∧ ∀ k w g, weight s !! k = Some w → weight_update s !! k = Some g →
        weight s2 !! k = Some (descent lr2 (descent lr1 w g) g).
Proof.
  intros Hpop.
  destruct (update_weights_ok s lr1 Hpop) as (s1 & Hrun1 & Eb1 & Eu1 & Ed1 & Hw1).
  destruct (update_weights_ok s1 lr2) as (s2 & Hrun2 & Eb2 & Eu2 & Ed2 & Hw2).
  { intros k w1 Hk.
    assert (Hdom : k ∈ dom (weight s)) by (rewrite <- Ed1; apply elem_of_dom; eauto).
    apply elem_of_dom in Hdom as [w Hw].
    destruct (Hpop k w Hw) as (g & Hg & Hs).
    rewrite (Hw1 k w g Hw Hg) in Hk. injection Hk as <-.
    exists g. rewrite Eu1. done. }
  exists s1, s2. split_and!; [done | done | congruence |].
  intros k w g Hw Hg. apply Hw2; [by apply Hw1 | by rewrite Eu1].
Qed.

(** X13. Returning or raising, [_update_weights] changes nothing but the
    values of parameters: [cache], [grad], [weight_update] and the set of
    parameter keys are as before. On a Layer without parameters it returns
    and changes nothing, whatever [weight_update] holds. *)
Theorem update_weights_frame s lr :
  (base (_update_weights lr s).1 = base s
   ∧ weight_update (_update_weights lr s).1 = weight_update s
   ∧ dom (weight (_update_weights lr s).1) = dom (weight s))
  ∧ _update_weights lr (set_weight (λ _, ∅) s) = (set_weight (λ _, ∅) s, Ok tt).
Proof.
  split.
  - apply (for_each_update_frame lr (map_to_list (weight s)).*1 s).
  - unfold _update_weights. simpl. by rewrite map_to_list_empty.
Qed.

End LayerUpdate.

(** ** The Sigmoid unit under any driver *)

Section SigmoidProtocol.
Context {T : Type} `{!Scalar T, !Functional T}.
Implicit Types (s : Function_state T) (X dY : ndarray T) (o : op T).

(** X14. A Sigmoid unit remembers its last run of the call protocol and
    nothing else: after any history it is as it was at the start, except
    that [grad] holds [sigmoid_prime] of the argument of the last run of the
    call protocol, if there was one. It never writes to [cache]. *)
Theorem Sigmoid_run_last_call s ops :
  Sigmoid_run s ops =
    match last_call ops with
    | Some X => set_grad {[ "X" := sigmoid_prime X ]} s
    | None => s
    end.
Proof.
  revert s. induction ops as [|o ops IH]; intros s; [done |].
  unfold Sigmoid_run in *. cbn [foldl last_call]. rewrite IH.
  destruct (last_call ops) as [X|];
    destruct o as [X0 | X0 | dY | lr]; unfold Sigmoid_exec;
    rewrite ?Sigmoid_backward_state; done.
Qed.

(** The product of a single row with an array of as many columns. *)
Lemma nd_mul_row (a g : ndarray T) :
  shape a = (1, ncols g) →
  nd_mul a g = Ok (tabulate (nrows g) (ncols g) (λ i j, fmul (get a 0 j) (get g i j))).
Proof.
  intros [Hr Hc]%shape_eq.
  unfold nd_mul, broadcast2. rewrite Hr, Hc, broadcast_dim_same.
  assert (Hbd : broadcast_dim 1 (nrows g) = Some (nrows g)).
  { unfold broadcast_dim. repeat case_decide; congruence. }
  rewrite Hbd. f_equal. apply tabulate_ext. intros i j Hi Hj.
  unfold get_broadcast. rewrite Hr, Hc.
  by rewrite (broadcast_index_lt (ncols g) j), (broadcast_index_lt (nrows g) i),
    broadcast_index_one.
Qed.

(** X15. [Sigmoid.backward] broadcasts: after the call protocol has run on
    [X], an output gradient with a single row and the columns of [X] is
    accepted and used for every row, giving an array of the shape of [X]. *)
Theorem Sigmoid_backward_broadcasts_row s X dY :
  shape dY = (1, ncols X) →
  backward dY (call X s).1 =
    ((call X s).1,
     Ok (tabulate (nrows X) (ncols X)
           (λ i j, fmul (get dY 0 j) (logistic_prime (get X i j))))).
Proof.
  intros SY. rewrite Sigmoid_call_run. cbn [fst].
  unfold backward, Sigmoid, Sigmoid_backward, bind, lift, getattr_item, getitem.
  cbn [grad set_grad]. rewrite lookup_singleton_eq.
  rewrite nd_mul_row by done. do 2 f_equal.
  apply tabulate_ext. intros i j Hi Hj.
  unfold sigmoid_prime. by rewrite get_nd_map.
Qed.

(** X16. [Sigmoid.backward] raises [ValueError] and changes nothing when the
    output gradient does not fit the input of the call protocol: on an axis
    the two lengths differ and neither is 1. *)
Theorem Sigmoid_backward_shape_error s X dY :
  (nrows dY ≠ nrows X ∧ nrows dY ≠ 1 ∧ nrows X ≠ 1)
  ∨ (ncols dY ≠ ncols X ∧ ncols dY ≠ 1 ∧ ncols X ≠ 1) →
  backward dY (call X s).1 = ((call X s).1, Raise ValueError).
Proof.
  intros Hbad. rewrite Sigmoid_call_run. cbn [fst].
  unfold backward, Sigmoid, Sigmoid_backward, bind, lift, getattr_item, getitem.
  cbn [grad set_grad]. rewrite lookup_singleton_eq. f_equal.
  unfold nd_mul, broadcast2, broadcast_dim. simpl.
  destruct Hbad as [(H1 & H2 & H3) | (H1 & H2 & H3)].
  - by rewrite !decide_False by done.
  - rewrite (decide_False (P := ncols dY = ncols X)) by done.
    rewrite (decide_False (P := ncols dY = 1)) by done.
    rewrite (decide_False (P := ncols X = 1)) by done.
    by repeat case_decide.
Qed.

End SigmoidProtocol.

(** ** The sample units under the statements above *)

(** The sample unit after any of the histories used below. *)
Ltac sample_history ops :=
  exists Sample.W0, Sample.b0, ops;
  split_and!; [lia | reflexivity | reflexivity | reflexivity].

(** X1 on the sample unit after the call protocol and [backward]. *)
Lemma Linear_parameters_never_resized_witness :
  ∃ W b, weight Sample.s2 = {[ "W" := W; "b" := b ]}
         ∧ shape W = (3, 2) ∧ shape b = (1, 2).
Proof.
  apply (Linear_parameters_never_resized 3 2 Sample.s2).
  sample_history [OpCall Sample.X; OpBackward Sample.dY].
Defined.

(** X2 on the sample unit: an input with two columns is refused. *)
Lemma Linear_call_accepts_witness :
  call Sample.dY Sample.s0 = (Sample.s0, Raise ValueError)
  ∧ forward Sample.dY Sample.s0 = (Sample.s0, Raise ValueError).
Proof.
  destruct (Linear_call_accepts 3 2 Sample.s0 Sample.dY) as (W & b & _ & _ & H).
  - sample_history (@nil (op Z)).
  - exact H.
Defined.


(** X4 on the sample unit after [backward]. *)
Lemma Linear_update_accepts_witness :
  (weight_update Sample.s2 ≠ ∅ ∧ (_update_weights 1%Z Sample.s2).2 = Ok tt)
  ∨ (weight_update Sample.s2 = ∅
     ∧ ∃ k, _update_weights 1%Z Sample.s2 = (Sample.s2, Raise (KeyError k))).
Proof.
  apply (Linear_update_accepts 3 2 Sample.s2 1%Z).
  sample_history [OpCall Sample.X; OpBackward Sample.dY].
Defined.

(** X6 on the sample unit. *)
Lemma Linear_backward_replaces_weight_update_witness :
  backward Sample.dY' (backward Sample.dY Sample.s1).1 = backward Sample.dY' Sample.s1.
Proof.
  apply (Linear_backward_replaces_weight_update Sample.s1 Sample.dY Sample.dY'
           (matmul Sample.dY' (transpose Sample.W0))).
  reflexivity.
Defined.

(** X7 on the sample unit. *)
Lemma Linear_call_cache_witness :
  cache (base Sample.s1) !! "X" = Some Sample.X
  ∧ cache (base Sample.s1) !! "output"
    = Some (NdArray 4 2 [[11; 22]; [13; 24]; [19; 32]; [17; 30]]%Z).
Proof.
  destruct (Linear_call_cache Sample.s0 Sample.X Sample.s1
              (NdArray 4 2 [[11; 22]; [13; 24]; [19; 32]; [17; 30]]%Z))
    as (HX & Hout & _); [reflexivity |].
  split; [exact HX | exact Hout].
Defined.

(** X8 on the sample unit. *)
Lemma Linear_backward_after_direct_forward_witness :
  cache (base (forward Sample.X2 Sample.s1).1) !! "X" = Some Sample.X2
  ∧ weight_update (backward Sample.dY (forward Sample.X2 Sample.s1).1).1 !! "W"
    = Some (matmul (transpose Sample.X) Sample.dY).
Proof.
  destruct (Linear_backward_after_direct_forward Sample.s0 Sample.W0 Sample.b0
              Sample.X Sample.X2 Sample.dY 3 2) as [Hc Hb]; try reflexivity.
  split; [exact Hc |].
  change (forward Sample.X2 (call Sample.X Sample.s0).1).1
    with (forward Sample.X2 Sample.s1).1 in Hb.
  rewrite Hb. reflexivity.
Defined.

(** X9 on the sample unit. *)
Lemma Linear_backward_uses_call_time_weight_witness :
  ∃ W, weight Sample.s0 !! "W" = Some W
       ∧ weight (Linear_run Sample.s0
                   [OpCall Sample.X; OpBackward Sample.dY; OpUpdate 1%Z]) !! "W"
         = Some (descent 1%Z W (matmul (transpose Sample.X) Sample.dY))
       ∧ (backward Sample.dY'
            (Linear_run Sample.s0
               [OpCall Sample.X; OpBackward Sample.dY; OpUpdate 1%Z])).2
         = Ok (matmul Sample.dY' (transpose W)).
Proof.
  apply (Linear_backward_uses_call_time_weight 3 2 Sample.s0
           Sample.X Sample.dY Sample.dY' 1%Z); try reflexivity.
  sample_history (@nil (op Z)).
Defined.

(** X10 on the sample unit. *)
Lemma Linear_training_step_witness :
  ∃ W b,
    weight Sample.s0 = {[ "W" := W; "b" := b ]}
    ∧ weight (Linear_run Sample.s0
                [OpCall Sample.X; OpBackward Sample.dY; OpUpdate 1%Z])
      = {[ "W" := descent 1%Z W (matmul (transpose Sample.X) Sample.dY);
           "b" := descent 1%Z b (np_sum_axis0_keepdims Sample.dY) ]}
    ∧ (call Sample.X2
         (Linear_run Sample.s0
            [OpCall Sample.X; OpBackward Sample.dY; OpUpdate 1%Z])).2
      = Ok (affine Sample.X2
              (descent 1%Z W (matmul (transpose Sample.X) Sample.dY))
              (descent 1%Z b (np_sum_axis0_keepdims Sample.dY))).
Proof.
  apply (Linear_training_step 3 2 Sample.s0 Sample.X Sample.dY 1%Z Sample.X2);
    try reflexivity.
  sample_history (@nil (op Z)).
Defined.

Example sample_training_step :
  (call Sample.X2
     (Linear_run Sample.s0 [OpCall Sample.X; OpBackward Sample.dY; OpUpdate 1%Z])).2
  = Ok (NdArray 1 2 [[7; 16]]%Z).
Proof. reflexivity. Qed.

(** X11 on the sample unit with a batch of no rows. *)
Lemma Linear_empty_batch_witness :
  (call Sample.X0 Sample.s0).2 = Ok (NdArray 0 2 [])
  ∧ (backward Sample.dY0 (call Sample.X0 Sample.s0).1).2 = Ok (NdArray 0 3 [])
  ∧ weight_update (backward Sample.dY0 (call Sample.X0 Sample.s0).1).1
    = {[ "W" := tabulate 3 2 (λ _ _, fzero); "b" := tabulate 1 2 (λ _ _, fzero) ]}.
Proof.
  apply (Linear_empty_batch Sample.s0 Sample.W0 Sample.b0 Sample.X0 Sample.dY0 3 2);
    reflexivity.
Defined.

(** X12 on the sample unit after [backward]. *)
Lemma update_reuses_stored_gradient_witness :
  ∃ s1 s2,
    _update_weights 1%Z Sample.s2 = (s1, Ok tt)
    ∧ _update_weights 2%Z s1 = (s2, Ok tt)
    ∧ weight s2 !! "W"
      = Some (descent 2%Z
                (descent 1%Z Sample.W0 (matmul (transpose Sample.X) Sample.dY))
                (matmul (transpose Sample.X) Sample.dY)).
Proof.
  destruct (update_reuses_stored_gradient Sample.s2 1%Z 2%Z sample_populated)
    as (s1 & s2 & H1 & H2 & _ & Hw).
  exists s1, s2. split_and!; [exact H1 | exact H2 |].
  apply Hw; reflexivity.
Defined.

Example sample_second_update :
  weight (_update_weights 2%Z (_update_weights 1%Z Sample.s2).1).1 !! "W"
  = Some (NdArray 3 2 [[-11; -16]; [-3; -2]; [-1; -3]]%Z).
Proof. reflexivity. Qed.

(** X15 on a Sigmoid unit over the reals. *)
Lemma Sigmoid_backward_broadcasts_row_witness :
  backward Sample.RX' (call Sample.RX2 Function_init).1 =
    ((call Sample.RX2 Function_init).1,
     Ok (tabulate 2 2
           (λ i j, fmul (get Sample.RX' 0 j) (logistic_prime (get Sample.RX2 i j))))).
Proof.
  apply (Sigmoid_backward_broadcasts_row Function_init Sample.RX2 Sample.RX').
  reflexivity.
Defined.

(** X16 on a Sigmoid unit over the reals. *)
Lemma Sigmoid_backward_shape_error_witness :
  backward Sample.RdY3 (call Sample.RX2 Function_init).1
  = ((call Sample.RX2 Function_init).1, Raise ValueError).
Proof.
  apply (Sigmoid_backward_shape_error Function_init Sample.RX2 Sample.RdY3).
  right. simpl. lia.
Defined.
